(** * MuLi filesystem: the playlist store and the file node/handle layer

    A shallow embedding of two Go sources of the MuLi music filesystem:

    - the playlist part of package [store] ([GetPlaylistFilePath],
      [ListPlaylistSongs], [CreatePlaylist]), which sits on the bolt
      key/value engine and on the real file tree;
    - [file.go] of package [main] ([File.Attr], [File.Open],
      [FileHandle.Release], [FileHandle.Flush]), the FUSE node and handle
      callbacks.

    Go strings are byte strings, here [string]; a Go [error] is an
    [option error] with [None] for [nil]; a call that can panic or block
    returns an [outcome]. *)

From Stdlib Require Import ZArith NArith Ascii String List Sorted Lia.
From stdpp Require Import base option list gmap strings.

Set Default Proof Using "Type".
Set Warnings "-register-all".

(** ** Go values *)

Module Go.

(** [len(s)] of a string, as a Go [int]. *)
Definition len (s : string) : Z := Z.of_nat (String.length s).

(** What a call does: it returns, it panics (a run-time error such as an
    index out of range or a nil dereference), or it waits on a mutex that
    nobody is going to release. *)
Inductive outcome (A : Type) : Type :=
| Ret (a : A)
| Panic
| Blocked.
Arguments Ret {A} a.
Arguments Panic {A}.
Arguments Blocked {A}.

(** Sequencing stops at the first panic or block: [x ← m; k]. *)
Global Instance outcome_bind : MBind outcome := λ A B k m,
  match m with
  | Ret a => k a
  | Panic => Panic
  | Blocked => Blocked
  end.

(** [s[i]]: the byte at index [i]; out of range is a run-time panic. *)
Definition index (s : string) (i : Z) : outcome ascii :=
  if ((0 <=? i) && (i <? len s))%Z then
    match String.get (Z.to_nat i) s with
    | Some c => Ret c
    | None => Panic
    end
  else Panic.

(** The error values that reach the code under study. *)
Inductive error : Type :=
| ENOENT                       (* fuse.ENOENT *)
| EPERM                        (* fuse.EPERM *)
| EIO                          (* fuse.EIO *)
| ErrorsNew (msg : string)     (* errors.New(msg) *)
| ErrBucketNameRequired        (* bolt.ErrBucketNameRequired *)
| ErrIncompatibleValue         (* bolt.ErrIncompatibleValue *)
| ErrOther (msg : string).     (* an error of the OS or of a collaborator *)

(** Go's [uint] on the 64-bit targets the filesystem is built for. *)
Definition uintBits : Z := 64.
Definition uint (z : Z) : Z := z mod 2 ^ uintBits.

End Go.

Import Go.

(** ** The bolt engine, as far as the store uses it *)

Module Bolt.

(** A bucket is a B+tree of keys in byte order; a key holds either a leaf
    value or a nested bucket. The list is the tree's in-order traversal. *)
Inductive node : Type :=
| Leaf (v : string)
| Nested (b : list (string * node)).

Abbreviation bucket := (list (string * node)).

(** Position the cursor on [key]: the entry stored under exactly that key. *)
Fixpoint seek (key : string) (b : bucket) : option node :=
  match b with
  | [] => None
  | (k, n) :: b' => if String.eqb key k then Some n else seek key b'
  end.

(** [b.Bucket(name)]: [nil] unless the key exists and is a nested bucket. *)
Definition Bucket (b : bucket) (name : string) : option bucket :=
  match seek name b with
  | Some (Nested c) => Some c
  | _ => None
  end.

(** [b.Get(key)]: [nil] if the key is absent or is a nested bucket. *)
Definition Get (b : bucket) (key : string) : option string :=
  match seek key b with
  | Some (Leaf v) => Some v
  | _ => None
  end.

(** Store [n] under [key], in key order, replacing an entry of that key. *)
Fixpoint put (key : string) (n : node) (b : bucket) : bucket :=
  match b with
  | [] => [(key, n)]
  | (k, n') :: b' =>
      match String.compare key k with
      | Lt => (key, n) :: b
      | Eq => (key, n) :: b'
      | Gt => (k, n') :: put key n b'
      end
  end.

(** [b.CreateBucketIfNotExists(key)] in a writable transaction: the child
    bucket (the existing one, or a new empty one) and the bucket with the
    child in it; an empty name and a key that holds a leaf value are
    refused. *)
Definition CreateBucketIfNotExists (b : bucket) (key : string)
  : (bucket * bucket) + error :=
  if String.eqb key "" then inr ErrBucketNameRequired
  else match seek key b with
       | Some (Nested c) => inl (c, b)
       | Some (Leaf _) => inr ErrIncompatibleValue
       | None => inl ([], put key (Nested []) b)
       end.

(** What a cursor yields from [First] through [Next]: every key in order,
    with a [nil] value for a nested bucket. *)
Definition cursor (b : bucket) : list (string * option string) :=
  map (fun kn => (kn.1, match kn.2 with Leaf v => Some v | Nested _ => None end)) b.

(** [db.View(fn)]: a read-only transaction returns what [fn] returns. *)
Definition View {A} (fn : bucket → A * option error) (root : bucket)
  : A * option error := fn root.

(** [db.Update(fn)]: the changes of [fn] are committed when [fn] returns
    [nil] and the commit itself does not fail, and dropped otherwise. *)
Definition Update (fn : bucket → bucket * option error)
    (commitErr : option error) (root : bucket) : bucket * option error :=
  match fn root with
  | (_, Some e) => (root, Some e)
  | (root', None) =>
      match commitErr with
      | Some e => (root, Some e)
      | None => (root', None)
      end
  end.

(** Keys in strictly increasing byte order, at every level. *)
Definition key_lt (a b : string) : Prop := String.compare a b = Lt.

Fixpoint sortedb (ks : list string) : bool :=
  match ks with
  | [] => true
  | k :: ks' =>
      forallb (fun k' => match String.compare k k' with Lt => true | _ => false end) ks'
      && sortedb ks'
  end.

Fixpoint wf_node (n : node) : bool :=
  match n with
  | Leaf _ => true
  | Nested b =>
      sortedb (map fst b)
      && forallb (fun kn => let '(_, c) := kn in wf_node c) b
  end.

Definition wf (b : bucket) : bool := wf_node (Nested b).

End Bolt.

(** ** Package store: playlists *)

Module Store.

Import Bolt.

(** [os.FileInfo], as far as the store looks at it. *)
Record FileInfo : Type := { fiName : string; fiIsDir : bool }.

(** [fuse.Dirent]. *)
Inductive DirentType : Type := DT_File | DT_Dir.
Record Dirent : Type := { Name : string; Type_ : DirentType }.

(** Modelled from the spec: the declaration of [playlistmgr.PlaylistFile],
    the record a song's bytes deserialize to; the spec gives it as
    [{ path: string }] and the store reads its [Path] field. *)
Record PlaylistFile : Type := { Path : string }.

(** What the store sees outside itself: whether [bolt.Open(config.DbPath)]
    succeeds, the buckets of the database file, whether a commit succeeds,
    and the file tree through [os.Stat] and [ioutil.ReadDir] ([None] when
    the call returns an error). *)
Record World : Type := {
  dbOpenErr : option error;
  dbRoot : bucket;
  dbCommitErr : option error;
  osStat : string → option FileInfo;
  ioReadDir : string → option (list FileInfo)
}.

(** What a call does to its collaborators. *)
Inductive event : Type :=
| RegeneratePlaylistFile (name mPoint : string).

Section WithCollaborators.

(** [json.Unmarshal(bytes, &file)] for a [PlaylistFile]; [None] is a
    non-nil error. *)
Variable unmarshal : string → option PlaylistFile.

(** [getCompatibleString], the name normalizer of the store. *)
Variable getCompatibleString : string → string.

(** The closure [GetPlaylistFilePath] runs in [db.View]: the captured
    [returnValue] and the closure's error. *)
Definition viewSongPath (playlist song : string) (tx : bucket)
  : string * option error :=
  match Bucket tx "Playlists" with
  | None => ("", Some (ErrorsNew "No playlists."))
  | Some root =>
      match Bucket root playlist with
      | None => ("", Some (ErrorsNew "Playlist not exists."))
      | Some playlistBucket =>
          match Get playlistBucket song with
          | None => ("", Some (ErrorsNew "Song not found."))
          | Some songJson =>
              match unmarshal songJson with
              | None => ("", Some (ErrorsNew "Cannot open song."))
              | Some file => (Path file, None)
              end
          end
      end
  end.

Definition GetPlaylistFilePath (playlist song mPoint : string) (w : World)
  : outcome (string * option error) :=
  match dbOpenErr w with
  | Some err => Ret ("", Some err)
  | None =>
      let '(returnValue, err) := View (viewSongPath playlist song) (dbRoot w) in
      match err with
      | None => Ret (returnValue, None)
      | Some _ =>
          c ← index mPoint (len mPoint - 1);
          let mPoint := if Ascii.eqb c "/" then mPoint else mPoint +:+ "/" in
          let fullPath := mPoint +:+ "playlists/" +:+ playlist +:+ "/" +:+ song in
          match osStat w fullPath with
          | None => Ret ("", Some (ErrorsNew "File not exists."))
          | Some src =>
              if fiIsDir src then Ret ("", Some (ErrorsNew "File not exists."))
              else Ret (fullPath, None)
          end
      end
  end.

(** The cursor loop of [ListPlaylistSongs]: append a file entry for every
    key whose value is not [nil]. *)
Definition appendSongs (a : list Dirent) (kvs : list (string * option string))
  : list Dirent :=
  fold_left
    (fun a kv =>
       match kv.2 with
       | Some _ => a ++ [{| Name := kv.1; Type_ := DT_File |}]
       | None => a
       end)
    kvs a.

Definition viewSongs (playlist : string) (tx : bucket)
  : list Dirent * option error :=
  match Bucket tx "Playlists" with
  | None => ([], None)
  | Some root =>
      match Bucket root playlist with
      | None => ([], None)
      | Some b => (appendSongs [] (cursor b), None)
      end
  end.

(** The range loop of [ListPlaylistSongs] over the directory listing. *)
Definition appendFiles (a : list Dirent) (files : list FileInfo) : list Dirent :=
  fold_left
    (fun a f =>
       if fiIsDir f then a
       else a ++ [{| Name := fiName f; Type_ := DT_File |}])
    files a.

Definition ListPlaylistSongs (playlist mPoint : string) (w : World)
  : outcome (list Dirent * option error) :=
  match dbOpenErr w with
  | Some err => Ret ([], Some err)
  | None =>
      let '(a, err) := View (viewSongs playlist) (dbRoot w) in
      match err with
      | Some e => Ret ([], Some e)
      | None =>
          c ← index mPoint (len mPoint - 1);
          let mPoint := if Ascii.eqb c "/" then mPoint else mPoint +:+ "/" in
          let fullPath := mPoint +:+ "playlists/" +:+ playlist +:+ "/" in
          let files := default [] (ioReadDir w fullPath) in
          Ret (appendFiles a files, None)
      end
  end.

(** The closure [CreatePlaylist] runs in [db.Update]. *)
Definition updatePlaylist (name : string) (tx : bucket) : bucket * option error :=
  match CreateBucketIfNotExists tx "Playlists" with
  | inr err => (tx, Some err)
  | inl (root, tx') =>
      match CreateBucketIfNotExists root name with
      | inr err => (tx', Some err)
      | inl (_, root') => (put "Playlists" (Nested root') tx', None)
      end
  end.

(** [CreatePlaylist]: the returned pair, the world afterwards and the
    collaborator calls made. *)
Definition CreatePlaylist (name mPoint : string) (w : World)
  : (string * option error) * World * list event :=
  let name := getCompatibleString name in
  match dbOpenErr w with
  | Some err => (("", Some err), w, [])
  | None =>
      let '(root', err) := Update (updatePlaylist name) (dbCommitErr w) (dbRoot w) in
      match err with
      | Some e => (("", Some e), w, [])
      | None =>
          ((name, None),
           {| dbOpenErr := dbOpenErr w; dbRoot := root';
              dbCommitErr := dbCommitErr w;
              osStat := osStat w; ioReadDir := ioReadDir w |},
           [RegeneratePlaylistFile name mPoint])
      end
  end.

(** The cursor loop of [ListPlaylists]: append a directory entry for every
    key whose value is [nil], that is, for every nested bucket. *)
Definition appendPlaylists (a : list Dirent) (kvs : list (string * option string))
  : list Dirent :=
  fold_left
    (fun a kv =>
       match kv.2 with
       | None => a ++ [{| Name := kv.1; Type_ := DT_Dir |}]
       | Some _ => a
       end)
    kvs a.

Definition viewPlaylists (tx : bucket) : list Dirent * option error :=
  match Bucket tx "Playlists" with
  | None => ([], None)
  | Some b => (appendPlaylists [] (cursor b), None)
  end.

(** [ListPlaylists] drops the error of the transaction and returns [nil]
    for it. *)
Definition ListPlaylists (w : World) : list Dirent * option error :=
  match dbOpenErr w with
  | Some err => ([], Some err)
  | None =>
      let '(a, _) := View viewPlaylists (dbRoot w) in
      (a, None)
  end.

End WithCollaborators.

End Store.

(** ** Package main: file nodes and handles (file.go) *)

Module Main.

(** A [*File] is an address in the heap of nodes, so that two handles on one
    node share its writer count and buffer; a [*os.File] is a descriptor. *)
Definition loc : Type := nat.
Definition fd : Type := nat.

Record File : Type := {
  artist : string;
  album : string;
  song : string;
  name : string;
  mPoint : string;
  (* To store special files in the DB. *)
  mu : bool;               (* the mutex is held *)
  writers : Z;             (* uint *)
  data : option string     (* []byte, None for nil *)
}.

Record FileHandle : Type := {
  r : option fd;           (* *os.File, None for nil *)
  f : option loc           (* *File, None for nil *)
}.

(** [fuse.Attr], the two fields [Attr] fills in. *)
Record Attr_ : Type := { Size : Z; Mode : Z }.

(** A three-digit octal mode, as in [0444]. *)
Definition octal (u g o : Z) : Z := (u * 64 + g * 8 + o)%Z.

(** Calls that leave the process, in the order they are made. *)
Inductive event : Type :=
| EvLock (l : loc)
| EvUnlock (l : loc)
| EvClose (r : fd)
| EvSync (r : fd)
| EvHandleDrop (path : string)
| EvSetMp3Tags (artist album song songPath : string).

Record State : Type := {
  heap : gmap loc File;        (* the nodes *)
  files : gmap fd string;      (* the open descriptors and their paths *)
  nextFd : fd;
  trace : list event
}.

(** A callback runs on the state; a panic or a block keeps the state reached
    so far. *)
Definition M (A : Type) : Type := State → outcome A * State.

Definition ret {A} (a : A) : M A := λ st, (Ret a, st).

Definition bind {A B} (m : M A) (k : A → M B) : M B := λ st,
  match m st with
  | (Ret a, st') => k a st'
  | (Panic, st') => (Panic, st')
  | (Blocked, st') => (Blocked, st')
  end.

Notation "'let*' x ':=' m 'in' k" := (bind m (fun x => k))
  (at level 10, x pattern, m at level 100, k at level 200).

Definition lift {A} (o : outcome A) : M A := λ st, (o, st).

Definition emit (e : event) : M unit := λ st,
  (Ret (), {| heap := heap st; files := files st; nextFd := nextFd st;
              trace := trace st ++ [e] |}).

(** [*p] for a node pointer. *)
Definition deref (p : option loc) : M loc := λ st,
  match p with
  | Some l => (Ret l, st)
  | None => (Panic, st)
  end.

Definition load (l : loc) : M File := λ st,
  match heap st !! l with
  | Some n => (Ret n, st)
  | None => (Panic, st)
  end.

Definition store (l : loc) (n : File) : M unit := λ st,
  (Ret (), {| heap := <[l := n]> (heap st); files := files st;
              nextFd := nextFd st; trace := trace st |}).

Definition set_mu (b : bool) (n : File) : File :=
  {| artist := artist n; album := album n; song := song n; name := name n;
     mPoint := mPoint n; mu := b; writers := writers n; data := data n |}.

Definition set_writers (w : Z) (n : File) : File :=
  {| artist := artist n; album := album n; song := song n; name := name n;
     mPoint := mPoint n; mu := mu n; writers := w; data := data n |}.

Definition set_data (d : option string) (n : File) : File :=
  {| artist := artist n; album := album n; song := song n; name := name n;
     mPoint := mPoint n; mu := mu n; writers := writers n; data := d |}.

(** [f.mu.Lock()]: waits while the mutex is held. *)
Definition Lock (l : loc) : M unit :=
  let* n := load l in
  if mu n then (λ st, (Blocked, st))
  else (let* _ := store l (set_mu true n) in emit (EvLock l)).

(** [f.mu.Unlock()]. *)
Definition Unlock (l : loc) : M unit :=
  let* n := load l in
  let* _ := store l (set_mu false n) in
  emit (EvUnlock l).

(** [len(b)] of a byte slice; a nil slice has length 0. *)
Definition lenBytes (d : option string) : Z :=
  match d with Some b => len b | None => 0%Z end.

(** [filepath.Ext]: the suffix from the last dot of the last path element. *)
Fixpoint extFrom (s : string) : option string :=
  match s with
  | EmptyString => None
  | String c s' =>
      match extFrom s' with
      | Some e => Some e
      | None =>
          if Ascii.eqb c "." then Some (String c s')
          else if Ascii.eqb c "/" then Some EmptyString
          else None
      end
  end.
Definition Ext (path : string) : string := default EmptyString (extFrom path).

(** [fuse.OpenFlags]: the access mode is the low two bits. *)
Definition OpenAccessModeMask : N := 3.
Definition IsReadOnly (fl : N) : bool := N.eqb (N.land fl OpenAccessModeMask) 0.

(** [fuse.OpenDirectIO]. *)
Definition OpenDirectIO : N := 1.

Section WithCollaborators.

(** The other functions of package [store] that file.go calls, the tag
    writer, and the operating system. Each returns what its Go signature
    returns. *)
Variable GetFilePath : string → string → string → string * option error.
Variable GetDescription : string → string → string → string * option error.
Variable GetSpecialFile : string → string → string → string * option error.
Variable HandleDrop : string → option error.
Variable GOOS : string.                        (* runtime.GOOS *)
Variable osOpenErr : string → option error.    (* os.Open(path) fails *)
Variable statFile : string → Z * option error. (* r.Stat(): the size *)
Variable closeErr : fd → option error.         (* close(2) fails *)

(** [os.Open(path)]. *)
Definition osOpen (path : string) : M (option fd * option error) := λ st,
  match osOpenErr path with
  | Some e => (Ret (None, Some e), st)
  | None =>
      (Ret (Some (nextFd st), None),
       {| heap := heap st; files := <[nextFd st := path]> (files st);
          nextFd := S (nextFd st); trace := trace st |})
  end.

(** [r.Close()]: closing a descriptor that is not open is an error. *)
Definition Close (r : fd) : M (option error) := λ st,
  (Ret (match files st !! r with
        | Some _ => closeErr r
        | None => Some (ErrOther "file already closed")
        end),
   {| heap := heap st; files := delete r (files st);
      nextFd := nextFd st; trace := trace st ++ [EvClose r] |}).

(** [r.Stat()]. *)
Definition Stat (r : fd) : M (Z * option error) := λ st,
  match files st !! r with
  | Some path => (Ret (statFile path), st)
  | None => (Ret (0%Z, Some (ErrOther "file already closed")), st)
  end.

Definition Attr (f : loc) (a : Attr_) : M (Attr_ * option error) :=
  let* n := load f in
  let* c := lift (index (name n) 0) in
  if Ascii.eqb c "." then
    if String.eqb (name n) ".description" then
      let '(descriptionJson, err) := GetDescription (artist n) (album n) (name n) in
      match err with
      | Some e => ret (a, Some e)
      | None => ret ({| Size := len descriptionJson; Mode := octal 4 4 4 |}, None)
      end
    else
      let* _ := Lock f in
      let a := {| Size := lenBytes (data n); Mode := octal 6 6 6 |} in
      if (writers n =? 0)%Z then
        (* This is read only. Get the real size from the DB *)
        let '(b, err) := GetSpecialFile (artist n) (album n) (name n) in
        let a := match err with
                 | None => {| Size := len b; Mode := Mode a |}
                 | Some _ => a
                 end in
        let* _ := Unlock f in
        ret (a, err)
      else
        let* _ := Unlock f in
        ret (a, None)
  else
    let '(songPath, err) := GetFilePath (artist n) (album n) (name n) in
    match err with
    | Some e => ret (a, Some e)
    | None =>
        let* (r, err) := osOpen songPath in
        match r, err with
        | Some r, None =>
            let* (size, err) := Stat r in
            match err with
            | Some e => let* _ := Close r in ret (a, Some e)
            | None =>
                let* _ := Close r in
                ret ({| Size := size; Mode := octal 7 7 7 |}, None)
            end
        | _, _ => ret (a, err)
        end
    end.

(** [Open] receives the request's flags, which it only logs, and the
    response, whose flags it may extend. *)
Definition Open (f : loc) (reqFlags respFlags : N)
  : M ((option FileHandle * option error) * N) :=
  let* n := load f in
  if String.eqb (name n) ".description" then
    ret ((Some {| r := None; f := Some f |}, None), respFlags)
  else
    let* c := lift (index (name n) 0) in
    if Ascii.eqb c "." then ret ((None, Some EPERM), respFlags)
    else
      let respFlags :=
        if String.eqb GOOS "darwin" then N.lor respFlags OpenDirectIO
        else respFlags in
      let '(songPath, err) := GetFilePath (artist n) (album n) (name n) in
      match err with
      | Some e => ret ((None, Some e), respFlags)
      | None =>
          let* (r, err) := osOpen songPath in
          match r, err with
          | Some r, None =>
              ret ((Some {| r := Some r; f := Some f |}, None), respFlags)
          | _, _ => ret ((None, err), respFlags)
          end
      end.

(** The test [len(name) > 1 && name[0] == '.' && (name[1] == '_' ||
    name == ".DS_Store")] of [Release], evaluated left to right. *)
Definition isMacSpecial (name : string) : M bool :=
  if (1 <? len name)%Z then
    let* c0 := lift (index name 0) in
    if Ascii.eqb c0 "." then
      let* c1 := lift (index name 1) in
      if Ascii.eqb c1 "_" then ret true
      else ret (String.eqb name ".DS_Store")
    else ret false
  else ret false.

Definition Release (fh : FileHandle) (reqFlags : N) : M (option error) :=
  match r fh with
  | None =>
      let* l := deref (f fh) in
      let* n := load l in
      if String.eqb (name n) ".description" then ret None
      else
        let* special := isMacSpecial (name n) in
        if special then
          if IsReadOnly reqFlags then
            (* We are not tracking read only special files. *)
            ret None
          else
            let* _ := Lock l in
            let* n := load l in
            let n := set_writers (uint (writers n - 1)) n in
            let n := if (writers n =? 0)%Z then set_data None n else n in
            let* _ := store l n in
            let* _ := Unlock l in
            ret None
        else ret None
  | Some r =>
      let* drop :=
        match f fh with
        | None => ret false
        | Some l => let* n := load l in ret (String.eqb (artist n) "drop")
        end in
      if drop then
        let* l := deref (f fh) in
        let* n := load l in
        let* ret_val := Close r in
        (* Get the dropped file path. *)
        let rootPoint := mPoint n in
        let* c := lift (index rootPoint (len rootPoint - 1)) in
        let rootPoint :=
          if Ascii.eqb c "/" then rootPoint else rootPoint +:+ "/" in
        let path := rootPoint +:+ "drop/" +:+ name n in
        let* _ := emit (EvHandleDrop path) in
        match HandleDrop path with
        | Some err => ret (Some err)
        | None => ret ret_val
        end
      else
        (* This is not an music file or this is a strange situation. *)
        match f fh with
        | None => Close r
        | Some l =>
            let* n := load l in
            if ((len (artist n) <? 1) || (len (album n) <? 1))%Z then Close r
            else
              let* ret_val := Close r in
              let extension := Ext (name n) in
              let '(songPath, err) := GetFilePath (artist n) (album n) (name n) in
              match err with
              | Some e => ret (Some e)
              | None =>
                  if String.eqb (artist n) "playlist" then ret ret_val
                  else if String.eqb extension ".mp3" then
                    let* _ := emit (EvSetMp3Tags (artist n) (album n) (song n) songPath) in
                    ret ret_val
                  else ret ret_val
              end
        end
  end.

Definition Flush (fh : FileHandle) : M (option error) :=
  match r fh with
  | None => ret (Some EIO)
  | Some r => let* _ := emit (EvSync r) in ret None
  end.

(** The requests of [Read] and [Write], and the calls the two make on a
    descriptor, in order. *)
Record ReadRequest : Type := { readOffset : Z; readSize : Z }.
Record WriteRequest : Type := { writeOffset : Z; writeData : string }.

Inductive ioCall : Type :=
| IoRead (r : fd) (size : Z)
| IoWrite (r : fd) (data : string).

(** [io.EOF], which package io declares as [errors.New("EOF")]. *)
Definition EOF : error := ErrorsNew "EOF".
Definition isEOF (e : error) : bool :=
  match e with
  | ErrorsNew msg => String.eqb msg "EOF"
  | _ => false
  end.

(** More of package [store], and what a descriptor answers: [r.Read(buf)]
    with [len(buf) = size] gives the bytes [buf[:n]] it has read, and
    [r.Write(data)] the count it has written. *)
Variable GetArtistPath : string → string * option error.
Variable GetAlbumPath : string → string → string * option error.
Variable readFile : fd → Z → string * option error.
Variable writeFile : fd → string → Z * option error.

(** [Read] receives the response's [Data] and returns what it leaves there;
    [make([]byte, size)] with a negative size is a run-time panic. *)
Definition Read (fh : FileHandle) (req : ReadRequest) (respData : string)
  : M ((string * option error) * list ioCall) :=
  match r fh with
  | None =>
      let* l := deref (f fh) in
      let* n := load l in
      if String.eqb (name n) ".description" then
        if (len (artist n) <? 1)%Z then ret ((respData, Some ENOENT), [])
        else
          match (GetArtistPath (artist n)).2 with
          | Some err => ret ((respData, Some err), [])
          | None =>
              match
                (if (1 <? len (album n))%Z
                 then (GetAlbumPath (artist n) (album n)).2 else None)
              with
              | Some err => ret ((respData, Some err), [])
              | None =>
                  let '(descBytes, err) :=
                    GetDescription (artist n) (album n) (name n) in
                  match err with
                  | Some e => ret ((respData, Some e), [])
                  | None => ret ((descBytes, None), [])
                  end
              end
          end
      else ret ((respData, Some EIO), [])
  | Some r =>
      if (readSize req <? 0)%Z then lift Panic
      else λ st,
        let '(data, err) :=
          match files st !! r with
          | Some _ => readFile r (readSize req)
          | None => (EmptyString, Some (ErrOther "file already closed"))
          end in
        (Ret ((data,
               match err with
               | Some e => if isEOF e then None else Some e
               | None => None
               end),
              [IoRead r (readSize req)]), st)
  end.

(** [Write] receives the response's [Size] and returns what it leaves
    there. *)
Definition Write (fh : FileHandle) (req : WriteRequest) (respSize : Z)
  : M ((Z * option error) * list ioCall) :=
  match r fh with
  | None =>
      let* l := deref (f fh) in
      let* n := load l in
      if String.eqb (name n) ".description" then
        ret ((respSize, Some EPERM), [])
      else ret ((respSize, Some EIO), [])
  | Some r => λ st,
      let '(n, err) :=
        match files st !! r with
        | Some _ => writeFile r (writeData req)
        | None => (0%Z, Some (ErrOther "file already closed"))
        end in
      (Ret ((n, err), [IoWrite r (writeData req)]), st)
  end.

(** [Setattr] logs the node and the requested size and does nothing. *)
Definition Setattr (f : loc) (reqSize : option Z) : M (option error) :=
  let* _ := load f in
  ret None.

End WithCollaborators.

End Main.

(** ** Vocabulary of the statements *)

Module Spec.

Import Bolt Store.

(** The bytes recorded for [song] under [Playlists/<playlist>]. *)
Definition record (root : bucket) (playlist song : string) : option string :=
  pl ← Bucket root "Playlists"; b ← Bucket pl playlist; Get b song.

(** The mount root with its trailing slash. *)
Definition endsWithSlash (m : string) : bool :=
  match String.get (String.length m - 1) m with
  | Some c => Ascii.eqb c "/"
  | None => false
  end.
Definition slashed (m : string) : string :=
  if endsWithSlash m then m else m +:+ "/".

(** The conventional places below the mount root. *)
Definition playlistDir (m p : string) : string :=
  slashed m +:+ "playlists/" +:+ p +:+ "/".
Definition fallbackPath (m p s : string) : string :=
  slashed m +:+ "playlists/" +:+ p +:+ "/" +:+ s.
Definition dropPath (m n : string) : string := slashed m +:+ "drop/" +:+ n.

(** A file that is not a directory exists at [path]. *)
Definition isFile (w : World) (path : string) : bool :=
  match osStat w path with
  | Some fi => negb (fiIsDir fi)
  | None => false
  end.

Definition fileEntry (n : string) : Dirent := {| Name := n; Type_ := DT_File |}.

(** The keys of [Playlists/<playlist>] that hold a value, in cursor order. *)
Definition songKeys (root : bucket) (playlist : string) : list string :=
  match pl ← Bucket root "Playlists"; Bucket pl playlist with
  | Some b => (filter (λ kv, is_Some kv.2) (cursor b)).*1
  | None => []
  end.

(** The names of the non-directory files in the playlist's directory. *)
Definition diskNames (w : World) (m p : string) : list string :=
  fiName <$> filter (λ fi, fiIsDir fi = false)
               (default [] (ioReadDir w (playlistDir m p))).

(** The error of the store-level part of [CreatePlaylist]: opening the
    database and running the update transaction. *)
Definition storeFailure (name : string) (w : World) : option error :=
  match dbOpenErr w with
  | Some e => Some e
  | None => (Update (updatePlaylist name) (dbCommitErr w) (dbRoot w)).2
  end.

(** How many entries of a bucket sit under [key]. *)
Definition occurrences (key : string) (b : bucket) : nat :=
  length (filter (λ kn, kn.1 = key) b).

(** The buffer of a special file exists only while it has writers. *)
Definition bufferInv (n : Main.File) : Prop :=
  Main.data n ≠ None → (0 < Main.writers n)%Z.

(** A special (transient) name: it begins with [._] or is [.DS_Store]. *)
Definition specialName (n : string) : Prop :=
  (∃ rest, n = String "." (String "_" rest)) ∨ n = ".DS_Store".

(** A node after a writer has gone: one writer less, the buffer dropped
    when that was the last one, the mutex free again. *)
Definition released (n : Main.File) : Main.File :=
  let w := uint (Main.writers n - 1) in
  {| Main.artist := Main.artist n; Main.album := Main.album n;
     Main.song := Main.song n; Main.name := Main.name n;
     Main.mPoint := Main.mPoint n; Main.mu := false; Main.writers := w;
     Main.data := if (w =? 0)%Z then None else Main.data n |}.

(** The state after a call that touched nothing but the listed parts. *)
Definition withTrace (st : Main.State) (es : list Main.event) : Main.State :=
  {| Main.heap := Main.heap st; Main.files := Main.files st;
     Main.nextFd := Main.nextFd st; Main.trace := Main.trace st ++ es |}.

Definition dirEntry (n : string) : Dirent := {| Name := n; Type_ := DT_Dir |}.

(** The keys of [Playlists] that are nested buckets, in cursor order. *)
Definition playlistNames (root : bucket) : list string :=
  match Bucket root "Playlists" with
  | Some b => (filter (λ kv, kv.2 = None) (cursor b)).*1
  | None => []
  end.

(** The bucket [Playlists/<playlist>], if there is one. *)
Definition playlistBucket (root : bucket) (playlist : string) : option bucket :=
  pl ← Bucket root "Playlists"; Bucket pl playlist.

(** What the store can read for a song: its record, deserialized. *)
Definition readable (unmarshal : string → option PlaylistFile)
    (root : bucket) (playlist song : string) : option PlaylistFile :=
  record root playlist song ≫= unmarshal.

(** A leaf value sits under [key]. *)
Definition holdsLeaf (b : bucket) (key : string) : Prop :=
  ∃ v, seek key b = Some (Leaf v).

(** [CreatePlaylist] can go through for [name]: the name is not empty and
    neither [Playlists] nor [Playlists/<name>] is taken by a leaf value. *)
Definition creatable (root : bucket) (name : string) : Prop :=
  name ≠ EmptyString
  ∧ ¬ holdsLeaf root "Playlists"
  ∧ ∀ pl, Bucket root "Playlists" = Some pl → ¬ holdsLeaf pl name.

(** What [Close] answers for a descriptor. *)
Definition closeResult (closeErr : Main.fd → option error)
    (st : Main.State) (d : Main.fd) : option error :=
  match Main.files st !! d with
  | Some _ => closeErr d
  | None => Some (ErrOther "file already closed")
  end.

(** The state after descriptor [d] has been closed and [es] has followed. *)
Definition closed (st : Main.State) (d : Main.fd) (es : list Main.event)
  : Main.State :=
  {| Main.heap := Main.heap st; Main.files := delete d (Main.files st);
     Main.nextFd := Main.nextFd st;
     Main.trace := Main.trace st ++ Main.EvClose d :: es |}.

(** A node that carries artist and album and is not of the drop area. *)
Definition isSong (n : Main.File) : Prop :=
  Main.artist n ≠ "drop" ∧ Main.artist n ≠ EmptyString
  ∧ Main.album n ≠ EmptyString.

(** Tags are to be rewritten for a song: its path resolves, it is not a
    playlist entry and its extension is [.mp3]. *)
Definition tagged (GetFilePath : string → string → string → string * option error)
    (n : Main.File) : bool :=
  match (GetFilePath (Main.artist n) (Main.album n) (Main.name n)).2 with
  | Some _ => false
  | None =>
      negb (String.eqb (Main.artist n) "playlist")
      && String.eqb (Main.Ext (Main.name n)) ".mp3"
  end.

(** Between two states no node has come or gone, no node has changed what
    it stands for, and no buffer has been made or changed, only dropped. *)
Definition sameNodes (st st' : Main.State) : Prop :=
  ∀ l,
    match Main.heap st !! l, Main.heap st' !! l with
    | Some n, Some n' =>
        Main.artist n' = Main.artist n ∧ Main.album n' = Main.album n
        ∧ Main.song n' = Main.song n ∧ Main.name n' = Main.name n
        ∧ Main.mPoint n' = Main.mPoint n
        ∧ (Main.data n' = Main.data n ∨ Main.data n' = None)
    | None, None => True
    | _, _ => False
    end.

(** The buckets with [Playlists/<name>] in place: what is there is kept, and
    what is missing is made, empty. *)
Definition withPlaylist (root : bucket) (name : string) : bucket :=
  let pl := default [] (Bucket root "Playlists") in
  put "Playlists"
    (Nested (match seek name pl with
             | Some _ => pl
             | None => put name (Nested []) pl
             end))
    root.

End Spec.

(** ** A small library, used to exercise the statements *)

Module Examples.

Import Bolt Store.

Definition quote : string := String (Ascii.ascii_of_nat 34) EmptyString.
Definition jsonPrefix : string := "{" +:+ quote +:+ "path" +:+ quote +:+ ":" +:+ quote.
Definition jsonSuffix : string := quote +:+ "}".

(** The record the store writes for a path. *)
Definition jsonOfPath (path : string) : string := jsonPrefix +:+ path +:+ jsonSuffix.

(** A decoder for records of exactly that shape; everything else is an
    error. *)
Definition decodePath (bytes : string) : option PlaylistFile :=
  let n := String.length bytes in
  let a := String.length jsonPrefix in
  let z := String.length jsonSuffix in
  if String.prefix jsonPrefix bytes
     && String.eqb (String.substring (n - z) z bytes) jsonSuffix
     && (a + z <=? n)%nat
  then Some {| Path := String.substring a (n - a - z) bytes |}
  else None.

(** Blanks to underscores, a stand-in for the store's normalizer. *)
Fixpoint underscores (s : string) : string :=
  match s with
  | EmptyString => EmptyString
  | String c s' =>
      String (if Ascii.eqb c " " then "_"%char else c) (underscores s')
  end.

Definition mixBucket : bucket :=
  [("broken", Leaf "garbage"); ("track1", Leaf (jsonOfPath "/music/a.mp3"))].

Definition library : bucket :=
  [("Playlists", Nested [("My_Mix", Nested mixBucket)])].

Definition regular (n : string) : FileInfo := {| fiName := n; fiIsDir := false |}.
Definition directory (n : string) : FileInfo := {| fiName := n; fiIsDir := true |}.

(** A tree mounted at [/mnt]: the playlist directory holds two files and a
    directory. *)
Definition tree (path : string) : option FileInfo :=
  if String.eqb path "/mnt/playlists/My_Mix/broken" then Some (regular "broken")
  else if String.eqb path "/mnt/playlists/My_Mix/track1" then Some (regular "track1")
  else if String.eqb path "/mnt/playlists/My_Mix/covers" then Some (directory "covers")
  else if String.eqb path "/playlists/My_Mix/loose" then Some (regular "loose")
  else None.

Definition listing (path : string) : option (list FileInfo) :=
  if String.eqb path "/mnt/playlists/My_Mix/"
  then Some [regular "broken"; directory "covers"; regular "track1"]
  else None.

Definition world : World :=
  {| dbOpenErr := None; dbRoot := library; dbCommitErr := None;
     osStat := tree; ioReadDir := listing |}.

Definition emptyWorld : World :=
  {| dbOpenErr := None; dbRoot := []; dbCommitErr := None;
     osStat := λ _, None; ioReadDir := λ _, None |}.

(** Nodes and a state for the handle layer. *)
Definition node (artist name mPoint : string) (writers : Z)
    (data : option string) : Main.File :=
  {| Main.artist := artist; Main.album := ""; Main.song := "";
     Main.name := name; Main.mPoint := mPoint; Main.mu := false;
     Main.writers := writers; Main.data := data |}.

Definition nodes : gmap Main.loc Main.File :=
  {[ 0 := node "Artist" ".description" "/mnt" 0 None;
     1 := node "Artist" "._cover" "/mnt" 2 (Some "abc");
     2 := node "drop" "new.mp3" "/mnt" 0 None;
     3 := node "drop" "new.mp3" "" 0 None;
     4 := node "Artist" "" "/mnt" 0 None;
     5 := node "Artist" ".hidden" "/mnt" 0 None;
     6 := node "Artist" "song.mp3" "/mnt" 0 None ]}.

Definition state : Main.State :=
  {| Main.heap := nodes; Main.files := {[ 7 := "/mnt/drop/new.mp3" ]};
     Main.nextFd := 8; Main.trace := [] |}.

(** Collaborators: a library without paths, an ingestion that fails. *)
Definition noPath (artist album name : string) : string * option error :=
  ("", Some ENOENT).
Definition noBytes (artist album name : string) : string * option error :=
  ("", Some ENOENT).
Definition failingDrop (path : string) : option error :=
  Some (ErrOther "ingestion failed").
Definition opens (path : string) : option error := None.
Definition sizes (path : string) : Z * option error := (0%Z, None).
Definition closes (r : Main.fd) : option error := None.

(** The world after ["My Mix"] has been created in the empty one. *)
Definition createdWorld : World :=
  {| dbOpenErr := None;
     dbRoot := [("Playlists", Nested [("My_Mix", Nested [])])];
     dbCommitErr := None; osStat := λ _, None; ioReadDir := λ _, None |}.

(** A song with artist and album, a special file nobody writes, and a
    state with the song open on descriptor 7. *)
Definition songNode : Main.File :=
  {| Main.artist := "Artist"; Main.album := "Album"; Main.song := "Song";
     Main.name := "song.mp3"; Main.mPoint := "/mnt"; Main.mu := false;
     Main.writers := 0; Main.data := None |}.

Definition idleSpecial : Main.File := node "Artist" "._cover" "/mnt" 0 (Some "abc").

Definition descriptionNode : Main.File :=
  {| Main.artist := "Artist"; Main.album := "A"; Main.song := "";
     Main.name := ".description"; Main.mPoint := "/mnt"; Main.mu := false;
     Main.writers := 0; Main.data := None |}.

Definition songState : Main.State :=
  {| Main.heap := {[ 0 := songNode; 1 := idleSpecial; 2 := descriptionNode ]};
     Main.files := {[ 7 := "/music/Artist/Album/song.mp3" ]};
     Main.nextFd := 8; Main.trace := [] |}.

(** A library that resolves every song, describes every directory, and
    knows every artist but no album; a descriptor at its end. *)
Definition libraryPath (artist album name : string) : string * option error :=
  ("/music/" +:+ artist +:+ "/" +:+ album +:+ "/" +:+ name, None).
Definition describes (artist album name : string) : string * option error :=
  ("{}", None).
Definition knownArtist (artist : string) : string * option error :=
  ("/music/" +:+ artist, None).
Definition noAlbum (artist album : string) : string * option error :=
  ("", Some ENOENT).
Definition atEnd (r : Main.fd) (size : Z) : string * option error :=
  ("abc", Some Main.EOF).

End Examples.

(** * Properties *)

Import Bolt Spec.

(** ** Byte order on keys *)

Section KeyOrder.

Lemma ascii_compare_refl (a : ascii) : Ascii.compare a a = Eq.
Proof. unfold Ascii.compare. apply N.compare_refl. Qed.

Lemma ascii_compare_lt_trans (a b c : ascii) :
  Ascii.compare a b = Lt → Ascii.compare b c = Lt → Ascii.compare a c = Lt.
Proof.
  unfold Ascii.compare. rewrite !N.compare_lt_iff. apply N.lt_trans.
Qed.

Lemma compare_refl (s : string) : String.compare s s = Eq.
Proof.
  induction s as [|a s IH]; simpl; [done|].
  by rewrite ascii_compare_refl.
Qed.

Lemma compare_lt_trans (s1 s2 s3 : string) :
  key_lt s1 s2 → key_lt s2 s3 → key_lt s1 s3.
Proof.
  unfold key_lt. revert s2 s3.
  induction s1 as [|a s1 IH]; intros [|b s2] [|c s3]; simpl; try done.
  destruct (Ascii.compare a b) eqn:Hab; try done.
  - apply Ascii.compare_eq_iff in Hab as ->.
    destruct (Ascii.compare b c) eqn:Hbc; try done. apply IH.
  - destruct (Ascii.compare b c) eqn:Hbc; try done.
    + apply Ascii.compare_eq_iff in Hbc as <-. by rewrite Hab.
    + by rewrite (ascii_compare_lt_trans _ _ _ Hab Hbc).
Qed.

Lemma compare_lt_irrefl (s : string) : ¬ key_lt s s.
Proof. unfold key_lt. by rewrite compare_refl. Qed.

Lemma compare_eqb (s1 s2 : string) :
  String.eqb s1 s2 = match String.compare s1 s2 with Eq => true | _ => false end.
Proof.
  destruct (String.compare s1 s2) eqn:Hc.
  - apply String.compare_eq_iff in Hc as ->. apply String.eqb_refl.
  - apply String.eqb_neq. intros ->. by rewrite compare_refl in Hc.
  - apply String.eqb_neq. intros ->. by rewrite compare_refl in Hc.
Qed.

End KeyOrder.

(** ** Strings and indexing *)

Section Indexing.

Lemma get_in_range (s : string) (i : nat) :
  i < String.length s → is_Some (String.get i s).
Proof.
  revert i. induction s as [|a s IH]; intros i; simpl; [lia|].
  destruct i as [|i]; [eauto|]. intros Hi. apply IH. lia.
Qed.

(** The last byte of a non-empty string is there to be indexed. *)
Lemma index_last (m : string) :
  m ≠ EmptyString →
  ∃ c, index m (len m - 1) = Ret c ∧ String.get (String.length m - 1) m = Some c.
Proof.
  intros Hm. unfold index, len.
  assert (0 < String.length m) as Hlen by (destruct m; simpl; [done|lia]).
  replace (Z.to_nat (Z.of_nat (String.length m) - 1)) with (String.length m - 1) by lia.
  destruct (get_in_range m (String.length m - 1)) as [c Hc]; [lia|].
  exists c. rewrite Hc. split; [|done].
  destruct (0 <=? _)%Z eqn:H1; [|lia].
  destruct (_ <? _)%Z eqn:H2; [done|lia].
Qed.

Lemma index_last_empty : index EmptyString (len EmptyString - 1) = Panic.
Proof. reflexivity. Qed.

(** The slash the code appends is the normalization [slashed]. *)
Lemma slashed_index (m : string) (c : ascii) :
  index m (len m - 1) = Ret c →
  (if Ascii.eqb c "/" then m else m +:+ "/") = slashed m.
Proof.
  intros Hc. destruct m as [|a m]; [done|].
  destruct (index_last (String a m)) as (c' & Hc' & Hget); [done|].
  rewrite Hc in Hc'. injection Hc' as <-.
  unfold slashed, endsWithSlash. by rewrite Hget.
Qed.

Lemma index_first_cons (a : ascii) (s : string) : index (String a s) 0 = Ret a.
Proof. reflexivity. Qed.

End Indexing.

(** ** Resolving a playlist entry *)

Section Resolve.

Import Store.

Variable unmarshal : string → option PlaylistFile.

Lemma viewSongPath_recorded root p s bytes file :
  record root p s = Some bytes → unmarshal bytes = Some file →
  viewSongPath unmarshal p s root = (Path file, None).
Proof.
  unfold record, viewSongPath. intros Hrec Hfile.
  destruct (Bucket root "Playlists") as [pl|]; [simpl in Hrec|done].
  destruct (Bucket pl p) as [b|]; [simpl in Hrec|done].
  by rewrite Hrec, Hfile.
Qed.

Lemma viewSongPath_unreadable root p s bytes :
  record root p s = Some bytes → unmarshal bytes = None →
  viewSongPath unmarshal p s root = ("", Some (ErrorsNew "Cannot open song.")).
Proof.
  unfold record, viewSongPath. intros Hrec Hfile.
  destruct (Bucket root "Playlists") as [pl|]; [simpl in Hrec|done].
  destruct (Bucket pl p) as [b|]; [simpl in Hrec|done].
  by rewrite Hrec, Hfile.
Qed.

Lemma viewSongPath_no_record root p s :
  record root p s = None → ∃ e, viewSongPath unmarshal p s root = ("", Some e).
Proof.
  unfold record, viewSongPath. intros Hrec.
  destruct (Bucket root "Playlists") as [pl|]; [simpl in Hrec|eauto].
  destruct (Bucket pl p) as [b|]; [simpl in Hrec|eauto].
  rewrite Hrec. eauto.
Qed.

(** Once the transaction has failed, the answer is decided by the file
    tree alone. *)
Lemma GetPlaylistFilePath_fallback p s m w e :
  m ≠ EmptyString → dbOpenErr w = None →
  viewSongPath unmarshal p s (dbRoot w) = ("", Some e) →
  GetPlaylistFilePath unmarshal p s m w =
    if isFile w (fallbackPath m p s)
    then Ret (fallbackPath m p s, None)
    else Ret ("", Some (ErrorsNew "File not exists.")).
Proof.
  intros Hm Hopen Hview. unfold GetPlaylistFilePath, View.
  rewrite Hopen, Hview.
  destruct (index_last m Hm) as (c & Hc & _). rewrite Hc. simpl.
  rewrite (slashed_index m c Hc).
  unfold isFile, fallbackPath.
  destruct (osStat w _) as [fi|]; [|done].
  by destruct (fiIsDir fi).
Qed.

(** C1: a recorded, readable entry resolves to its recorded path, whatever
    the mount root and whatever lies at the fallback location. *)
Theorem GetPlaylistFilePath_recorded p s m w bytes file :
  dbOpenErr w = None →
  record (dbRoot w) p s = Some bytes →
  unmarshal bytes = Some file →
  GetPlaylistFilePath unmarshal p s m w = Ret (Path file, None).
Proof.
  intros Hopen Hrec Hfile. unfold GetPlaylistFilePath, View.
  by rewrite Hopen, (viewSongPath_recorded _ _ _ _ _ Hrec Hfile).
Qed.

(** C2, as the code has it: an entry whose bytes do not deserialize is
    treated like an entry that is not recorded; with a non-empty mount root
    the call answers the fallback path when a non-directory file is there,
    and fails with "File not exists." otherwise. *)
Theorem GetPlaylistFilePath_unreadable p s m w bytes :
  m ≠ EmptyString →
  dbOpenErr w = None →
  record (dbRoot w) p s = Some bytes →
  unmarshal bytes = None →
  GetPlaylistFilePath unmarshal p s m w =
    if isFile w (fallbackPath m p s)
    then Ret (fallbackPath m p s, None)
    else Ret ("", Some (ErrorsNew "File not exists.")).
Proof.
  intros Hm Hopen Hrec Hfile.
  eapply GetPlaylistFilePath_fallback; [done..|].
  by apply viewSongPath_unreadable with bytes.
Qed.

(** C3, for a non-empty mount root: without a record the call answers the
    fallback path exactly when a non-directory file is there, and fails
    with "File not exists." otherwise. *)
Theorem GetPlaylistFilePath_no_record p s m w :
  m ≠ EmptyString →
  dbOpenErr w = None →
  record (dbRoot w) p s = None →
  (GetPlaylistFilePath unmarshal p s m w = Ret (fallbackPath m p s, None)
     ↔ isFile w (fallbackPath m p s) = true)
  ∧ (isFile w (fallbackPath m p s) = false →
     GetPlaylistFilePath unmarshal p s m w
       = Ret ("", Some (ErrorsNew "File not exists."))).
Proof.
  intros Hm Hopen Hrec.
  destruct (viewSongPath_no_record _ _ _ Hrec) as [e He].
  rewrite (GetPlaylistFilePath_fallback p s m w e Hm Hopen He).
  destruct (isFile w (fallbackPath m p s)); split; try done.
Qed.

End Resolve.

Section ResolveExamples.

Import Store Examples.

(** The recorded path wins although [/mnt/playlists/My_Mix/track1] exists. *)
Lemma GetPlaylistFilePath_recorded_witness :
  isFile world (fallbackPath "/mnt" "My_Mix" "track1") = true
  ∧ GetPlaylistFilePath decodePath "My_Mix" "track1" "/mnt" world
    = Ret ("/music/a.mp3", None).
Proof.
  split; [reflexivity|].
  apply (GetPlaylistFilePath_recorded decodePath "My_Mix" "track1" "/mnt" world
           (jsonOfPath "/music/a.mp3") {| Path := "/music/a.mp3" |});
    reflexivity.
Defined.

(** C2 fails as stated: the bytes under [broken] do not deserialize, and yet
    the call succeeds with the fallback path instead of reporting it. *)
Lemma GetPlaylistFilePath_unreadable_not_surfaced :
  record (dbRoot world) "My_Mix" "broken" = Some "garbage"
  ∧ decodePath "garbage" = None
  ∧ GetPlaylistFilePath decodePath "My_Mix" "broken" "/mnt" world
    = Ret ("/mnt/playlists/My_Mix/broken", None)
  ∧ GetPlaylistFilePath decodePath "My_Mix" "broken" "/mnt" world
    ≠ Ret ("", Some (ErrorsNew "Cannot open song.")).
Proof. repeat split; [reflexivity..|discriminate]. Qed.

Lemma GetPlaylistFilePath_unreadable_witness :
  GetPlaylistFilePath decodePath "My_Mix" "broken" "/mnt" world
  = Ret ("/mnt/playlists/My_Mix/broken", None).
Proof.
  apply (GetPlaylistFilePath_unreadable decodePath "My_Mix" "broken" "/mnt" world
           "garbage"); [discriminate|reflexivity..].
Defined.

(** C3 fails as stated: with the empty mount root nothing is recorded for
    [loose] and a file is at the fallback path, but the call panics on
    indexing the mount root; it neither answers the path nor fails with an
    error. *)
Lemma GetPlaylistFilePath_empty_mount_panics :
  record (dbRoot world) "My_Mix" "loose" = None
  ∧ isFile world (fallbackPath "" "My_Mix" "loose") = true
  ∧ GetPlaylistFilePath decodePath "My_Mix" "loose" "" world = Panic.
Proof. repeat split; reflexivity. Qed.

Lemma GetPlaylistFilePath_no_record_witness :
  (GetPlaylistFilePath decodePath "My_Mix" "covers" "/mnt/" world
     = Ret (fallbackPath "/mnt/" "My_Mix" "covers", None)
   ↔ isFile world (fallbackPath "/mnt/" "My_Mix" "covers") = true)
  ∧ (isFile world (fallbackPath "/mnt/" "My_Mix" "covers") = false →
     GetPlaylistFilePath decodePath "My_Mix" "covers" "/mnt/" world
       = Ret ("", Some (ErrorsNew "File not exists."))).
Proof.
  apply (GetPlaylistFilePath_no_record decodePath "My_Mix" "covers" "/mnt/" world);
    [discriminate|reflexivity..].
Defined.

End ResolveExamples.

(** ** Buckets *)

Section Buckets.

Lemma sortedb_StronglySorted (ks : list string) :
  sortedb ks = true ↔ StronglySorted key_lt ks.
Proof.
  induction ks as [|k ks IH]; simpl.
  - split; [constructor|done].
  - rewrite andb_true_iff, forallb_forall, IH. split.
    + intros [Hk Hks]. constructor; [done|].
      apply List.Forall_forall. intros k' Hin. specialize (Hk k' Hin).
      unfold key_lt. by destruct (String.compare k k').
    + intros Hs. apply StronglySorted_inv in Hs as [Hks Hk]. split; [|done].
      intros k' Hin. rewrite List.Forall_forall in Hk.
      by rewrite (Hk k' Hin).
Qed.

Lemma StronglySorted_lt_NoDup (ks : list string) :
  StronglySorted key_lt ks → NoDup ks.
Proof.
  induction 1 as [|k ks _ IH Hk]; constructor; [|done].
  intros Hin. rewrite Forall_forall in Hk.
  by apply (compare_lt_irrefl k), Hk.
Qed.

(** Dropping entries keeps the keys in order. *)
Lemma StronglySorted_fmap_filter {A} (f : A → string) (P : A → Prop)
    `{!∀ x, Decision (P x)} (l : list A) :
  StronglySorted key_lt (f <$> l) → StronglySorted key_lt (f <$> filter P l).
Proof.
  induction l as [|x l IH]; [done|].
  rewrite fmap_cons. intros Hs. apply StronglySorted_inv in Hs as [Hl Hx].
  rewrite filter_cons. destruct (decide (P x)); [|by apply IH].
  rewrite fmap_cons. constructor; [by apply IH|].
  rewrite Forall_fmap in Hx |- *. rewrite Forall_forall in Hx |- *.
  intros y Hy. apply Hx. by apply list_elem_of_filter in Hy as [_ ?].
Qed.

Lemma seek_Some_elem_of (k : string) (b : bucket) (n : node) :
  seek k b = Some n → (k, n) ∈ b.
Proof.
  induction b as [|[k0 n0] b IH]; simpl; [done|].
  destruct (String.eqb_spec k k0) as [->|_].
  - intros [= ->]. left.
  - intros Hs. right. by apply IH.
Qed.

Lemma wf_unfold (b : bucket) :
  wf b = true ↔ sortedb b.*1 = true ∧ ∀ k n, (k, n) ∈ b → wf_node n = true.
Proof.
  unfold wf. simpl. rewrite andb_true_iff, forallb_forall.
  split; intros [Hs Hn]; (split; [done|]).
  - intros k n Hin. apply (Hn (k, n)). by apply list_elem_of_In.
  - intros [k n] Hin. apply (Hn k n). by apply list_elem_of_In.
Qed.

(** A bucket reached from a well-formed bucket is well formed. *)
Lemma wf_Bucket (b c : bucket) (k : string) :
  wf b = true → Bucket b k = Some c → wf c = true.
Proof.
  intros [_ Hn]%wf_unfold. unfold Bucket.
  destruct (seek k b) as [[v|c']|] eqn:Hs; try done.
  intros [= ->]. by apply (Hn k), seek_Some_elem_of.
Qed.

Lemma cursor_keys (b : bucket) : (cursor b).*1 = b.*1.
Proof. unfold cursor. induction b as [|[k n] b IH]; [done|]. simpl. by f_equal. Qed.

(** What [put] stores under a key is what [seek] finds there. *)
Lemma seek_put_eq (k : string) (n : node) (b : bucket) :
  seek k (put k n b) = Some n.
Proof.
  induction b as [|[k0 n0] b IH]; simpl.
  - by rewrite String.eqb_refl.
  - destruct (String.compare k k0) eqn:Hc; simpl.
    + by rewrite String.eqb_refl.
    + by rewrite String.eqb_refl.
    + by rewrite compare_eqb, Hc.
Qed.

Lemma seek_put_ne (k k' : string) (n : node) (b : bucket) :
  k' ≠ k → seek k' (put k n b) = seek k' b.
Proof.
  intros Hne. induction b as [|[k0 n0] b IH]; simpl.
  - by apply String.eqb_neq in Hne as ->.
  - destruct (String.compare k k0) eqn:Hc; simpl.
    + apply String.compare_eq_iff in Hc as <-.
      by apply String.eqb_neq in Hne as ->.
    + by apply String.eqb_neq in Hne as ->.
    + by rewrite IH.
Qed.

Lemma put_put (k : string) (n : node) (b : bucket) :
  put k n (put k n b) = put k n b.
Proof.
  induction b as [|[k0 n0] b IH]; simpl.
  - by rewrite compare_refl.
  - destruct (String.compare k k0) eqn:Hc; simpl.
    + by rewrite compare_refl.
    + by rewrite compare_refl.
    + by rewrite Hc, IH.
Qed.

Lemma put_keys_elem_of (k k' : string) (n : node) (b : bucket) :
  k' ∈ (put k n b).*1 → k' = k ∨ k' ∈ b.*1.
Proof.
  induction b as [|[k0 n0] b IH]; simpl.
  - intros ->%list_elem_of_singleton. by left.
  - destruct (String.compare k k0) eqn:Hc; simpl; rewrite !elem_of_cons.
    + intros [->|?]; [by left|]. right. by right.
    + intros [->|[->|?]]; [by left|right; by left|right; by right].
    + intros [->|Hin]; [right; by left|].
      destruct (IH Hin) as [->|?]; [by left|right; by right].
Qed.

(** [put] keeps the keys in order. *)
Lemma put_sorted (k : string) (n : node) (b : bucket) :
  StronglySorted key_lt b.*1 → StronglySorted key_lt (put k n b).*1.
Proof.
  induction b as [|[k0 n0] b IH]; simpl; intros Hs.
  - repeat constructor.
  - apply StronglySorted_inv in Hs as [Hb Hk0].
    destruct (String.compare k k0) eqn:Hc; simpl.
    + apply String.compare_eq_iff in Hc as ->. by constructor.
    + constructor; [by constructor|].
      constructor; [done|].
      eapply Forall_impl; [exact Hk0|]. intros k' Hk'.
      by apply compare_lt_trans with k0.
    + constructor; [by apply IH|].
      apply Forall_forall. intros k' Hin.
      destruct (put_keys_elem_of _ _ _ _ Hin) as [->|Hin'].
      * unfold key_lt. rewrite String.compare_antisym, Hc. done.
      * rewrite Forall_forall in Hk0. by apply Hk0.
Qed.

(** Writing back what is stored under a key changes nothing. *)
Lemma put_seek_id (k : string) (n : node) (b : bucket) :
  StronglySorted key_lt b.*1 → seek k b = Some n → put k n b = b.
Proof.
  induction b as [|[k0 n0] b IH]; simpl; [done|]. intros Hs.
  apply StronglySorted_inv in Hs as [Hb Hk0].
  rewrite compare_eqb. destruct (String.compare k k0) eqn:Hc.
  - apply String.compare_eq_iff in Hc as ->. by intros [= ->].
  - intros Hin%seek_Some_elem_of. exfalso.
    rewrite Forall_forall in Hk0.
    assert (key_lt k0 k) as Hlt.
    { apply Hk0. apply list_elem_of_fmap. by exists (k, n). }
    apply (compare_lt_irrefl k). by apply compare_lt_trans with k0.
  - intros Hseek. by rewrite IH.
Qed.

Lemma seek_is_Some_keys (k : string) (b : bucket) :
  is_Some (seek k b) → k ∈ b.*1.
Proof.
  intros [n Hn]. apply list_elem_of_fmap. exists (k, n).
  split; [done|]. by apply seek_Some_elem_of.
Qed.

End Buckets.

(** ** Listing a playlist *)

Section Listing.

Import Store.

Lemma appendSongs_spec (a : list Dirent) (kvs : list (string * option string)) :
  appendSongs a kvs = a ++ (fileEntry <$> (filter (λ kv, is_Some kv.2) kvs).*1).
Proof.
  unfold appendSongs. revert a.
  induction kvs as [|[k [v|]] kvs IH]; intros a; cbn [fold_left].
  - by rewrite app_nil_r.
  - rewrite IH, filter_cons_True by (simpl; eauto).
    cbn. by rewrite <- app_assoc.
  - rewrite IH, filter_cons_False; [done|].
    simpl. by intros [? ?].
Qed.

Lemma appendFiles_spec (a : list Dirent) (files : list FileInfo) :
  appendFiles a files =
    a ++ (fileEntry <$> (fiName <$> filter (λ fi, fiIsDir fi = false) files)).
Proof.
  unfold appendFiles. revert a.
  induction files as [|fi files IH]; intros a; cbn [fold_left].
  - by rewrite app_nil_r.
  - rewrite IH. destruct (fiIsDir fi) eqn:Hd.
    + by rewrite filter_cons_False by congruence.
    + rewrite filter_cons_True by done. cbn. by rewrite <- app_assoc.
Qed.

Lemma viewSongs_spec (p : string) (root : bucket) :
  viewSongs p root = (fileEntry <$> songKeys root p, None).
Proof.
  unfold viewSongs, songKeys.
  destruct (Bucket root "Playlists") as [pl|]; simpl; [|done].
  destruct (Bucket pl p) as [b|]; [|done].
  by rewrite appendSongs_spec.
Qed.

(** The cursor walks a well-formed bucket in increasing key order. *)
Lemma songKeys_sorted (root : bucket) (p : string) :
  wf root = true → StronglySorted key_lt (songKeys root p).
Proof.
  intros Hwf. unfold songKeys.
  destruct (Bucket root "Playlists") as [pl|] eqn:Hpl; simpl; [|constructor].
  destruct (Bucket pl p) as [b|] eqn:Hb; [|constructor].
  apply StronglySorted_fmap_filter. rewrite cursor_keys.
  apply sortedb_StronglySorted.
  assert (wf b = true) as Hwfb by eauto using wf_Bucket.
  by apply wf_unfold in Hwfb as [? _].
Qed.

(** C7, for a non-empty mount root and a store that opens: the listing is
    the file entries of the keys of the playlist's bucket that hold a value,
    in the bucket's (sorted) key order, followed by the file entries of the
    non-directory files of the playlist's directory in the order the
    directory is read; nothing is removed, so a song that is both a key and
    a file is listed once in each part. *)
Theorem ListPlaylistSongs_entries (p m : string) (w : World) :
  m ≠ EmptyString →
  dbOpenErr w = None →
  ListPlaylistSongs p m w
    = Ret ((fileEntry <$> songKeys (dbRoot w) p)
             ++ (fileEntry <$> diskNames w m p), None)
  ∧ (wf (dbRoot w) = true →
     StronglySorted key_lt (songKeys (dbRoot w) p)
     ∧ NoDup (songKeys (dbRoot w) p))
  ∧ (∀ s, s ∈ songKeys (dbRoot w) p → s ∈ diskNames w m p →
     ∃ l1 l2 l3,
       (fileEntry <$> songKeys (dbRoot w) p) ++ (fileEntry <$> diskNames w m p)
       = l1 ++ fileEntry s :: l2 ++ fileEntry s :: l3).
Proof.
  intros Hm Hopen. split; [|split].
  - unfold ListPlaylistSongs, View. rewrite Hopen, viewSongs_spec.
    destruct (index_last m Hm) as (c & Hc & _). rewrite Hc. simpl.
    rewrite (slashed_index m c Hc), appendFiles_spec.
    done.
  - intros Hwf. pose proof (songKeys_sorted _ p Hwf) as Hs.
    split; [done|]. by apply StronglySorted_lt_NoDup.
  - intros s Hdb Hdisk.
    apply (list_elem_of_fmap_2 fileEntry), list_elem_of_split in Hdb
      as (a1 & a2 & ->).
    apply (list_elem_of_fmap_2 fileEntry), list_elem_of_split in Hdisk
      as (b1 & b2 & ->).
    exists a1, (a2 ++ b1), b2. by rewrite <- !app_assoc.
Qed.

End Listing.

Section ListingExamples.

Import Store Examples.

Lemma ListPlaylistSongs_entries_witness :
  ListPlaylistSongs "My_Mix" "/mnt" world
  = Ret ([fileEntry "broken"; fileEntry "track1";
          fileEntry "broken"; fileEntry "track1"], None)
  ∧ StronglySorted key_lt (songKeys (dbRoot world) "My_Mix").
Proof.
  destruct (ListPlaylistSongs_entries "My_Mix" "/mnt" world)
    as (Hlist & Hsorted & _); [discriminate|reflexivity|].
  split; [exact Hlist|]. apply Hsorted. reflexivity.
Defined.

(** C7 fails as stated: with the empty mount root the call panics on
    indexing the mount root and lists nothing. *)
Lemma ListPlaylistSongs_empty_mount_panics :
  ListPlaylistSongs "My_Mix" "" world = Panic.
Proof. reflexivity. Qed.

End ListingExamples.

(** ** Creating a playlist *)

Section Create.

Import Store.

Lemma occurrences_above (k : string) (b : bucket) :
  Forall (key_lt k) b.*1 → occurrences k b = 0.
Proof.
  unfold occurrences. induction b as [|[k0 n0] b IH]; [done|].
  rewrite fmap_cons, Forall_cons. intros [Hk Hb].
  rewrite filter_cons_False; [by apply IH|].
  simpl. intros ->. by apply (compare_lt_irrefl k).
Qed.

(** In a sorted bucket a key that is found is there exactly once. *)
Lemma occurrences_seek (k : string) (b : bucket) :
  StronglySorted key_lt b.*1 → is_Some (seek k b) → occurrences k b = 1.
Proof.
  unfold occurrences. induction b as [|[k0 n0] b IH]; simpl.
  - by intros _ [? ?].
  - intros [Hb Hk0]%StronglySorted_inv.
    destruct (String.eqb_spec k k0) as [->|Hne].
    + intros _. rewrite filter_cons_True by done. simpl.
      f_equal. by apply occurrences_above.
    + intros Hs. rewrite filter_cons_False by (simpl; congruence).
      by apply IH.
Qed.

(** What [CreateBucketIfNotExists] leaves behind when it succeeds. *)
Lemma CreateBucketIfNotExists_inl (b b' c : bucket) (k : string) :
  CreateBucketIfNotExists b k = inl (c, b') →
  seek k b' = Some (Nested c)
  ∧ CreateBucketIfNotExists b' k = inl (c, b')
  ∧ (StronglySorted key_lt b.*1 → StronglySorted key_lt b'.*1)
  ∧ (c = [] ∨ Bucket b k = Some c).
Proof.
  unfold CreateBucketIfNotExists, Bucket.
  destruct (String.eqb k "") eqn:Hk; [done|].
  destruct (seek k b) as [[v|c0]|] eqn:Hs; [done| |].
  - intros [= -> ->]. rewrite Hs. eauto.
  - intros [= <- <-]. rewrite seek_put_eq.
    split_and!; [done|done|apply put_sorted|by left].
Qed.

(** The update transaction, when it succeeds, leaves the bucket
    [Playlists/<name>] in place and is then a fixed point. *)
Lemma updatePlaylist_ok (name : string) (tx tx' : bucket) :
  updatePlaylist name tx = (tx', None) →
  updatePlaylist name tx' = (tx', None)
  ∧ ∃ pl, Bucket tx' "Playlists" = Some pl
          ∧ is_Some (Bucket pl name)
          ∧ (wf tx = true →
             occurrences "Playlists" tx' = 1 ∧ occurrences name pl = 1).
Proof.
  unfold updatePlaylist.
  destruct (CreateBucketIfNotExists tx "Playlists") as [[root tx1]|e] eqn:H1;
    [|done].
  destruct (CreateBucketIfNotExists root name) as [[c root']|e] eqn:H2;
    [|done].
  intros [= <-].
  apply CreateBucketIfNotExists_inl in H1 as (Hs1 & _ & Hsorted1 & Hroot).
  apply CreateBucketIfNotExists_inl in H2 as (Hs2 & Hagain & Hsorted2 & _).
  assert (CreateBucketIfNotExists (put "Playlists" (Nested root') tx1) "Playlists"
          = inl (root', put "Playlists" (Nested root') tx1)) as ->.
  { unfold CreateBucketIfNotExists. by rewrite seek_put_eq. }
  rewrite Hagain, put_put. split; [done|].
  exists root'. unfold Bucket. rewrite seek_put_eq, Hs2.
  split_and!; [done|by eexists|].
  intros Hwf. pose proof Hwf as [Htx _]%wf_unfold.
  apply sortedb_StronglySorted in Htx. split.
  - apply occurrences_seek; [by apply put_sorted, Hsorted1|].
    rewrite seek_put_eq. by eexists.
  - apply occurrences_seek; [|rewrite Hs2; by eexists].
    apply Hsorted2. destruct Hroot as [->|Hroot]; [constructor|].
    apply wf_Bucket in Hroot; [|done].
    apply wf_unfold in Hroot as [Hroot _].
    by apply sortedb_StronglySorted.
Qed.

Variable getCompatibleString : string → string.

(** C9: creating a playlist twice. The second call answers what the first
    answered and leaves the store as the first left it. A failure of the
    store-level part (opening the database, the update transaction, its
    commit) is what the call returns, with the store unchanged and no
    regeneration requested. When the first call succeeds, both calls
    answer the normalized name without error, regeneration is requested
    once per call and only after the transaction, and the bucket
    [Playlists/<normalized name>] is there, exactly once in a well-formed
    store. *)
Theorem CreatePlaylist_twice (n m : string) (w w1 w2 : World)
    (r1 r2 : string * option error) (t1 t2 : list event) :
  CreatePlaylist getCompatibleString n m w = (r1, w1, t1) →
  CreatePlaylist getCompatibleString n m w1 = (r2, w2, t2) →
  (r2 = r1 ∧ w2 = w1 ∧ t2 = t1)
  ∧ r1.2 = storeFailure (getCompatibleString n) w
  ∧ (∀ e, storeFailure (getCompatibleString n) w = Some e →
       r1 = ("", Some e) ∧ w1 = w ∧ t1 = [])
  ∧ (storeFailure (getCompatibleString n) w = None →
       r1 = (getCompatibleString n, None)
       ∧ r2 = (getCompatibleString n, None)
       ∧ t1 = [RegeneratePlaylistFile (getCompatibleString n) m]
       ∧ ∃ pl, Bucket (dbRoot w2) "Playlists" = Some pl
               ∧ is_Some (Bucket pl (getCompatibleString n))
               ∧ (wf (dbRoot w) = true →
                  occurrences "Playlists" (dbRoot w2) = 1
                  ∧ occurrences (getCompatibleString n) pl = 1)).
Proof.
  unfold CreatePlaylist, storeFailure, Update.
  destruct (dbOpenErr w) as [e|] eqn:Hopen.
  { intros [= <- <- <-]. rewrite Hopen. intros [= <- <- <-].
    split_and!; [done..| |done]. by intros e' [= <-]. }
  destruct (updatePlaylist (getCompatibleString n) (dbRoot w))
    as [root' [e|]] eqn:Hupd.
  { intros [= <- <- <-]. rewrite Hopen, Hupd. intros [= <- <- <-].
    split_and!; [done..| |done]. by intros e' [= <-]. }
  destruct (dbCommitErr w) as [e|] eqn:Hcommit.
  { intros [= <- <- <-]. rewrite Hopen, Hupd, Hcommit. intros [= <- <- <-].
    split_and!; [done..| |done]. by intros e' [= <-]. }
  intros [= <- <- <-]. simpl.
  destruct (updatePlaylist_ok _ _ _ Hupd) as (Hfix & pl & Hpl & Hname & Honce).
  rewrite Hfix. intros [= <- <- <-]. simpl.
  split_and!; [done..|]. intros _. split_and!; [done..|].
  exists pl. by split_and!.
Qed.

End Create.

Section CreateExamples.

Import Store Examples.

(** From an empty database: the first call creates [Playlists/My_Mix], the
    second finds it. *)
Lemma CreatePlaylist_twice_witness :
  let '(r1, w1, t1) := CreatePlaylist underscores "My Mix" "/mnt" emptyWorld in
  let '(r2, w2, t2) := CreatePlaylist underscores "My Mix" "/mnt" w1 in
  (r2 = r1 ∧ w2 = w1 ∧ t2 = t1)
  ∧ r1 = ("My_Mix", None)
  ∧ t1 = [RegeneratePlaylistFile "My_Mix" "/mnt"]
  ∧ occurrences "Playlists" (dbRoot w2) = 1
  ∧ dbRoot w2 = [("Playlists", Nested [("My_Mix", Nested [])])].
Proof.
  destruct (CreatePlaylist underscores "My Mix" "/mnt" emptyWorld)
    as [[r1 w1] t1] eqn:H1.
  destruct (CreatePlaylist underscores "My Mix" "/mnt" w1)
    as [[r2 w2] t2] eqn:H2.
  destruct (CreatePlaylist_twice underscores "My Mix" "/mnt" emptyWorld
              w1 w2 r1 r2 t1 t2 H1 H2) as (Hsame & _ & _ & Hok).
  destruct (Hok eq_refl) as (Hr1 & _ & Ht1 & pl & _ & _ & Honce).
  destruct (Honce eq_refl) as [Hroot _].
  split; [exact Hsame|]. split; [exact Hr1|]. split; [exact Ht1|].
  split; [exact Hroot|].
  destruct Hsame as (_ & -> & _).
  vm_compute in H1. by injection H1 as <- <- <-.
Defined.

(** A playlist name under which the bucket already holds a song's bytes is
    refused by the store, twice, and nothing is regenerated. *)
Lemma CreatePlaylist_refused :
  CreatePlaylist underscores "track1" "/mnt"
    {| dbOpenErr := None; dbRoot := [("Playlists", Nested mixBucket)];
       dbCommitErr := None; osStat := tree; ioReadDir := listing |}
  = (("", Some ErrIncompatibleValue),
     {| dbOpenErr := None; dbRoot := [("Playlists", Nested mixBucket)];
        dbCommitErr := None; osStat := tree; ioReadDir := listing |},
     []).
Proof. reflexivity. Qed.

End CreateExamples.

(** ** File nodes and handles *)

Section Handles.

Import Main.

Variable GetFilePath : string → string → string → string * option error.
Variable GetDescription : string → string → string → string * option error.
Variable GetSpecialFile : string → string → string → string * option error.
Variable HandleDrop : string → option error.
Variable GOOS : string.
Variable osOpenErr : string → option error.
Variable statFile : string → Z * option error.
Variable closeErr : fd → option error.

Local Abbreviation Attr := (Main.Attr GetFilePath GetDescription GetSpecialFile
                          osOpenErr statFile closeErr).
Local Abbreviation Open := (Main.Open GetFilePath GOOS osOpenErr).
Local Abbreviation Release := (Main.Release GetFilePath HandleDrop closeErr).


(** C8: a name that begins with a dot is refused with EPERM and gets no
    handle, unless it is [.description], which gets a handle without a
    descriptor; neither changes the state. *)
Theorem Open_dotfile (l : loc) (n : File) (st : State) (reqFlags respFlags : N) :
  heap st !! l = Some n →
  (∀ rest, name n = String "." rest → name n ≠ ".description" →
     Open l reqFlags respFlags st = (Ret ((None, Some EPERM), respFlags), st))
  ∧ (name n = ".description" →
     Open l reqFlags respFlags st
       = (Ret ((Some {| r := None; f := Some l |}, None), respFlags), st)).
Proof.
  intros Hn. unfold Main.Open, bind, load. rewrite Hn. split.
  - intros rest Hname Hne. apply String.eqb_neq in Hne as ->.
    by rewrite Hname.
  - by intros ->.
Qed.

Lemma Lock_free (l : loc) (n : File) (st : State) :
  heap st !! l = Some n → mu n = false →
  Lock l st = (Ret (), {| heap := <[l := set_mu true n]> (heap st);
                          files := files st; nextFd := nextFd st;
                          trace := trace st ++ [EvLock l] |}).
Proof. intros Hn Hmu. unfold Lock, bind, load. by rewrite Hn, Hmu. Qed.

Lemma Lock_held (l : loc) (n : File) (st : State) :
  heap st !! l = Some n → mu n = true → Lock l st = (Blocked, st).
Proof. intros Hn Hmu. unfold Lock, bind, load. by rewrite Hn, Hmu. Qed.

Lemma Unlock_spec (l : loc) (n : File) (st : State) :
  heap st !! l = Some n →
  Unlock l st = (Ret (), {| heap := <[l := set_mu false n]> (heap st);
                            files := files st; nextFd := nextFd st;
                            trace := trace st ++ [EvUnlock l] |}).
Proof. intros Hn. unfold Unlock, bind, load. by rewrite Hn. Qed.

Lemma Attr_empty_name (l : loc) (n : File) (a : Attr_) (st : State) :
  heap st !! l = Some n → name n = EmptyString → Attr l a st = (Panic, st).
Proof.
  intros Hn Hname. unfold Main.Attr, bind, load, lift. by rewrite Hn, Hname.
Qed.

Lemma Open_empty_name (l : loc) (n : File) (reqFlags respFlags : N) (st : State) :
  heap st !! l = Some n → name n = EmptyString →
  Open l reqFlags respFlags st = (Panic, st).
Proof.
  intros Hn Hname. unfold Main.Open, bind, load, lift. by rewrite Hn, Hname.
Qed.

Lemma Attr_nonempty_name (l : loc) (n : File) (a : Attr_) (st : State) :
  heap st !! l = Some n → name n ≠ EmptyString → (Attr l a st).1 ≠ Panic.
Proof.
  intros Hn Hname. destruct (name n) as [|c rest] eqn:Hnm; [done|].
  unfold Main.Attr, bind at 1 2, load at 1, lift. rewrite Hn, Hnm.
  rewrite index_first_cons. cbv iota beta.
  destruct (Ascii.eqb c ".").
  - destruct (String.eqb _ _).
    + by destruct (GetDescription _ _ _) as [d [e|]].
    + unfold bind at 1. destruct (mu n) eqn:Hmu.
      * by rewrite (Lock_held l n st Hn Hmu).
      * rewrite (Lock_free l n st Hn Hmu).
        destruct (writers n =? 0)%Z.
        -- destruct (GetSpecialFile _ _ _) as [b err].
           unfold bind. erewrite Unlock_spec; [done|]. simpl.
           apply lookup_insert_eq.
        -- unfold bind. erewrite Unlock_spec; [done|]. simpl.
           apply lookup_insert_eq.
  - destruct (GetFilePath _ _ _) as [songPath [e|]]; [done|].
    unfold bind, osOpen. destruct (osOpenErr songPath) as [e|]; [done|].
    unfold Stat. simpl. rewrite lookup_insert_eq.
    by destruct (statFile songPath) as [size [e|]].
Qed.

Lemma Open_nonempty_name (l : loc) (n : File) (reqFlags respFlags : N) (st : State) :
  heap st !! l = Some n → name n ≠ EmptyString →
  (Open l reqFlags respFlags st).1 ≠ Panic.
Proof.
  intros Hn Hname. destruct (name n) as [|c rest] eqn:Hnm; [done|].
  unfold Main.Open, bind at 1, load. rewrite Hn, Hnm.
  destruct (String.eqb _ _); [done|].
  unfold bind at 1, lift. rewrite index_first_cons.
  destruct (Ascii.eqb c "."); [done|].
  destruct (GetFilePath _ _ _) as [songPath [e|]]; [done|].
  unfold bind, osOpen. by destruct (osOpenErr songPath) as [e|].
Qed.

(** C10: on a node whose name is empty [Attr] and [Open] panic on indexing
    the name, before anything is changed; on every other node they do not
    panic. *)
Theorem Attr_Open_empty_name (l : loc) (n : File) (a : Attr_)
    (reqFlags respFlags : N) (st : State) :
  heap st !! l = Some n →
  (name n = EmptyString →
     Attr l a st = (Panic, st) ∧ Open l reqFlags respFlags st = (Panic, st))
  ∧ (name n ≠ EmptyString →
     (Attr l a st).1 ≠ Panic ∧ (Open l reqFlags respFlags st).1 ≠ Panic).
Proof.
  intros Hn. split; intros Hname.
  - eauto using Attr_empty_name, Open_empty_name.
  - eauto using Attr_nonempty_name, Open_nonempty_name.
Qed.

Lemma index_second_cons (a b : ascii) (s : string) :
  index (String a (String b s)) 1 = Ret b.
Proof.
  unfold index, len. simpl String.length.
  destruct (1 <? Z.of_nat (S (S (String.length s))))%Z eqn:Hlt;
    [done|apply Z.ltb_ge in Hlt; lia].
Qed.

Lemma specialName_not_description (nm : string) :
  specialName nm → String.eqb nm ".description" = false.
Proof. intros [[rest ->]| ->]; reflexivity. Qed.

Lemma isMacSpecial_specialName (nm : string) (st : State) :
  specialName nm → isMacSpecial nm st = (Ret true, st).
Proof.
  intros [[rest ->]| ->]; [|reflexivity].
  unfold isMacSpecial.
  destruct (1 <? len (String "." (String "_" rest)))%Z eqn:Hlt;
    [|unfold len in Hlt; simpl String.length in Hlt; apply Z.ltb_ge in Hlt; lia].
  unfold bind, lift. by rewrite index_first_cons, index_second_cons.
Qed.

(** A read-only handle on a special file goes without a trace. *)
Lemma Release_special_read (l : loc) (n : File) (st : State) (fl : N) :
  heap st !! l = Some n → specialName (name n) → IsReadOnly fl = true →
  Release {| r := None; f := Some l |} fl st = (Ret None, st).
Proof.
  intros Hn Hsp Hro. unfold Main.Release, deref, load, bind. simpl.
  rewrite Hn, (specialName_not_description _ Hsp).
  by rewrite (isMacSpecial_specialName _ _ Hsp), Hro.
Qed.

(** A writer waits for the mutex before it touches the node. *)
Lemma Release_special_blocked (l : loc) (n : File) (st : State) (fl : N) :
  heap st !! l = Some n → specialName (name n) → IsReadOnly fl = false →
  mu n = true →
  Release {| r := None; f := Some l |} fl st = (Blocked, st).
Proof.
  intros Hn Hsp Hro Hmu. unfold Main.Release, deref, load, bind. simpl.
  rewrite Hn, (specialName_not_description _ Hsp).
  rewrite (isMacSpecial_specialName _ _ Hsp), Hro.
  by rewrite (Lock_held l n st Hn Hmu).
Qed.

(** A writer that gets the mutex leaves the node [released]. *)
Lemma Release_special_write (l : loc) (n : File) (st : State) (fl : N) :
  heap st !! l = Some n → specialName (name n) → IsReadOnly fl = false →
  mu n = false →
  Release {| r := None; f := Some l |} fl st
  = (Ret None, {| heap := <[l := released n]> (heap st); files := files st;
                  nextFd := nextFd st;
                  trace := trace st ++ [EvLock l; EvUnlock l] |}).
Proof.
  intros Hn Hsp Hro Hmu. unfold Main.Release, deref, bind. simpl.
  unfold load at 1. rewrite Hn, (specialName_not_description _ Hsp).
  rewrite (isMacSpecial_specialName _ _ Hsp), Hro.
  rewrite (Lock_free l n st Hn Hmu).
  unfold load, store. simpl. rewrite lookup_insert_eq.
  erewrite Unlock_spec; [|simpl; apply lookup_insert_eq]. simpl.
  rewrite !insert_insert_eq, <- app_assoc. simpl.
  do 3 f_equal. unfold released.
  by destruct (uint (writers n - 1) =? 0)%Z.
Qed.

Lemma uint_range (z : Z) : (0 ≤ uint z < 2 ^ uintBits)%Z.
Proof. unfold uint, uintBits. apply Z.mod_pos_bound. lia. Qed.

Lemma released_bufferInv (n : File) : bufferInv (released n).
Proof.
  unfold bufferInv, released. simpl.
  pose proof (uint_range (writers n - 1)) as Hr.
  destruct (uint (writers n - 1) =? 0)%Z eqn:Hz; [done|].
  intros _. apply Z.eqb_neq in Hz. lia.
Qed.

Lemma released_writers (n : File) :
  (0 < writers n < 2 ^ uintBits)%Z → writers (released n) = (writers n - 1)%Z.
Proof.
  intros Hw. unfold released, uint. simpl. apply Z.mod_small. lia.
Qed.

(** C6: releasing a handle without descriptor on a special file. A
    read-only handle changes nothing. A write-capable handle takes the
    node's mutex (it waits while the mutex is held), takes one off the
    writer count, drops the buffer exactly when the count has reached zero,
    and frees the mutex; the node then has a buffer only if it has writers.
    So of two writers the first to go leaves the count at one and the
    buffer in place, and the second leaves the count at zero and no
    buffer. *)
Theorem Release_special (l : loc) (n : File) (st : State) (fl : N) :
  heap st !! l = Some n →
  specialName (name n) →
  (0 ≤ writers n < 2 ^ uintBits)%Z →
  (IsReadOnly fl = true →
     Release {| r := None; f := Some l |} fl st = (Ret None, st))
  ∧ (IsReadOnly fl = false → mu n = true →
     Release {| r := None; f := Some l |} fl st = (Blocked, st))
  ∧ (IsReadOnly fl = false → mu n = false →
     ∃ st',
       Release {| r := None; f := Some l |} fl st = (Ret None, st')
       ∧ heap st' = <[l := released n]> (heap st)
       ∧ files st' = files st
       ∧ trace st' = trace st ++ [EvLock l; EvUnlock l]
       ∧ writers (released n) = uint (writers n - 1)
       ∧ ((0 < writers n)%Z → writers (released n) = (writers n - 1)%Z)
       ∧ (writers (released n) = 0%Z → data (released n) = None)
       ∧ (writers (released n) ≠ 0%Z → data (released n) = data n)
       ∧ bufferInv (released n)
       ∧ (writers n = 2%Z → ∀ fl2, IsReadOnly fl2 = false →
          ∃ st'',
            Release {| r := None; f := Some l |} fl2 st' = (Ret None, st'')
            ∧ writers (released n) = 1%Z
            ∧ data (released n) = data n
            ∧ heap st'' = <[l := released (released n)]> (heap st)
            ∧ writers (released (released n)) = 0%Z
            ∧ data (released (released n)) = None)).
Proof.
  intros Hn Hsp Hw. split_and!.
  - intros Hro. by eapply Release_special_read.
  - intros Hro Hmu. by eapply Release_special_blocked.
  - intros Hro Hmu. eexists. split; [by apply Release_special_write|].
    simpl. split_and!; try done.
    + intros Hpos. apply released_writers. lia.
    + unfold released. simpl. by intros ->.
    + unfold released. simpl. by intros ->%Z.eqb_neq.
    + apply released_bufferInv.
    + intros H2 fl2 Hro2. eexists. split_and!.
      * apply Release_special_write; [apply lookup_insert_eq|done..].
      * unfold released. simpl. by rewrite H2.
      * unfold released. simpl. by rewrite H2.
      * simpl. by rewrite insert_insert_eq.
      * unfold released. simpl. by rewrite H2.
      * unfold released. simpl. by rewrite H2.
Qed.

(** With a mount root to index, a drop-area handle is closed and then the
    dropped file is handed to ingestion, whose error, if any, is the
    answer. *)
Lemma Release_drop_mounted (l : loc) (n : File) (d : fd) (st : State) (fl : N) :
  heap st !! l = Some n → artist n = "drop" → mPoint n ≠ EmptyString →
  Release {| r := Some d; f := Some l |} fl st
  = (Ret (match HandleDrop (dropPath (mPoint n) (name n)) with
          | Some err => Some err
          | None =>
              match files st !! d with
              | Some _ => closeErr d
              | None => Some (ErrOther "file already closed")
              end
          end),
     {| heap := heap st; files := delete d (files st); nextFd := nextFd st;
        trace := trace st ++ [EvClose d; EvHandleDrop (dropPath (mPoint n) (name n))] |}).
Proof.
  intros Hn Hdrop Hm. unfold Main.Release, deref, load, bind, ret. simpl.
  rewrite Hn, Hdrop. simpl. rewrite Hn. unfold lift.
  destruct (index_last _ Hm) as (c & Hc & _). rewrite Hc.
  rewrite (slashed_index _ c Hc). fold (dropPath (mPoint n) (name n)).
  unfold emit. simpl. rewrite <- app_assoc. simpl.
  by destruct (HandleDrop _).
Qed.

(** Without one, the handle is closed and the call panics. *)
Lemma Release_drop_unmounted (l : loc) (n : File) (d : fd) (st : State) (fl : N) :
  heap st !! l = Some n → artist n = "drop" → mPoint n = EmptyString →
  Release {| r := Some d; f := Some l |} fl st
  = (Panic,
     {| heap := heap st; files := delete d (files st); nextFd := nextFd st;
        trace := trace st ++ [EvClose d] |}).
Proof.
  intros Hn Hdrop Hm. unfold Main.Release, deref, load, bind, ret. simpl.
  rewrite Hn, Hdrop. simpl. rewrite Hn. unfold lift. by rewrite Hm.
Qed.

(** C5: releasing a handle with a descriptor on a node of the drop area.
    The descriptor is closed in every case, and the close is the first
    thing that happens; ingestion, when it is called, is called after the
    close and on [<mount root>/drop/<name>]; when the ingestion that was
    called fails, its error is what [Release] returns, and the descriptor
    stays closed. With a non-empty mount root ingestion is called, once. *)
Theorem Release_drop (l : loc) (n : File) (d : fd) (st : State) (fl : N) :
  heap st !! l = Some n →
  artist n = "drop" →
  ∃ o st' rest,
    Release {| r := Some d; f := Some l |} fl st = (o, st')
    ∧ files st' !! d = None
    ∧ heap st' = heap st
    ∧ trace st' = trace st ++ EvClose d :: rest
    ∧ (∀ ev, ev ∈ rest → ev = EvHandleDrop (dropPath (mPoint n) (name n)))
    ∧ (∀ e, EvHandleDrop (dropPath (mPoint n) (name n)) ∈ rest →
         HandleDrop (dropPath (mPoint n) (name n)) = Some e →
         o = Ret (Some e))
    ∧ (mPoint n ≠ EmptyString →
         rest = [EvHandleDrop (dropPath (mPoint n) (name n))]
         ∧ (HandleDrop (dropPath (mPoint n) (name n)) = None →
            o = Ret (match files st !! d with
                     | Some _ => closeErr d
                     | None => Some (ErrOther "file already closed")
                     end))).
Proof.
  intros Hn Hdrop. destruct (decide (mPoint n = EmptyString)) as [Hm|Hm].
  - eexists _, _, []. split; [by eapply Release_drop_unmounted|]. simpl.
    split_and!; [apply lookup_delete_eq|done|done| | |done].
    + by intros ev ?%elem_of_nil.
    + by intros e ?%elem_of_nil.
  - eexists _, _, [_]. split; [by eapply Release_drop_mounted|]. simpl.
    split_and!; [apply lookup_delete_eq|done|done| | |].
    + by intros ev ->%list_elem_of_singleton.
    + by intros e _ ->.
    + intros _. split; [done|]. by intros ->.
Qed.

End Handles.

Section HandleExamples.

Import Main Examples.



Lemma Open_dotfile_witness :
  Open noPath "linux" opens 5 0 0 state = (Ret ((None, Some EPERM), 0%N), state)
  ∧ Open noPath "linux" opens 0 0 0 state
    = (Ret ((Some {| r := None; f := Some 0 |}, None), 0%N), state).
Proof.
  split.
  - apply (proj1 (Open_dotfile noPath "linux" opens 5
                    (node "Artist" ".hidden" "/mnt" 0 None) state 0 0 eq_refl)
             "hidden"); [reflexivity|discriminate].
  - apply (proj2 (Open_dotfile noPath "linux" opens 0
                    (node "Artist" ".description" "/mnt" 0 None) state 0 0 eq_refl)).
    reflexivity.
Defined.

Lemma Attr_Open_empty_name_witness :
  Attr noPath noPath noBytes opens sizes closes 4 {| Size := 0; Mode := 0 |} state
  = (Panic, state)
  ∧ Open noPath "linux" opens 4 0 0 state = (Panic, state).
Proof.
  apply (proj1 (Attr_Open_empty_name noPath noPath noBytes "linux" opens sizes
                  closes 4 (node "Artist" "" "/mnt" 0 None)
                  {| Size := 0; Mode := 0 |} 0 0 state eq_refl)).
  reflexivity.
Defined.

(** Two writers on [._cover]: the first release leaves one writer and the
    buffer, the second leaves none of either. *)
Lemma Release_special_witness :
  ∃ st1 st2 n1 n2,
    Release noPath failingDrop closes {| r := None; f := Some 1 |} 1 state
    = (Ret None, st1)
    ∧ Release noPath failingDrop closes {| r := None; f := Some 1 |} 2 st1
      = (Ret None, st2)
    ∧ heap st1 !! 1 = Some n1 ∧ writers n1 = 1%Z ∧ data n1 = Some "abc"
    ∧ heap st2 !! 1 = Some n2 ∧ writers n2 = 0%Z ∧ data n2 = None.
Proof.
  destruct (Release_special noPath failingDrop closes 1
              (node "Artist" "._cover" "/mnt" 2 (Some "abc")) state 1 eq_refl)
    as (_ & _ & Hwrite).
  { left. by exists "cover". }
  { unfold uintBits. simpl. lia. }
  destruct (Hwrite eq_refl eq_refl)
    as (st1 & Hr1 & Hh1 & _ & _ & _ & _ & _ & _ & _ & Htwo).
  destruct (Htwo eq_refl 2%N eq_refl) as (st2 & Hr2 & Hw1 & Hd1 & Hh2 & Hw2 & Hd2).
  exists st1, st2, (released (node "Artist" "._cover" "/mnt" 2 (Some "abc"))),
    (released (released (node "Artist" "._cover" "/mnt" 2 (Some "abc")))).
  split_and!; [exact Hr1|exact Hr2| |exact Hw1|exact Hd1| |exact Hw2|exact Hd2].
  - rewrite Hh1. apply lookup_insert_eq.
  - rewrite Hh2. apply lookup_insert_eq.
Defined.

(** Ingestion fails: the descriptor 7 is closed and the error is returned. *)
Lemma Release_drop_witness :
  ∃ st',
    Release noPath failingDrop closes {| r := Some 7; f := Some 2 |} 0 state
    = (Ret (Some (ErrOther "ingestion failed")), st')
    ∧ files st' !! 7 = None
    ∧ trace st' = [EvClose 7; EvHandleDrop "/mnt/drop/new.mp3"].
Proof.
  destruct (Release_drop noPath failingDrop closes 2
              (node "drop" "new.mp3" "/mnt" 0 None) 7 state 0 eq_refl eq_refl)
    as (o & st' & rest & Hrel & Hclosed & _ & Htrace & _ & Hfail & Hmounted).
  destruct Hmounted as [-> _]; [discriminate|].
  rewrite (Hfail (ErrOther "ingestion failed")) in Hrel;
    [|apply list_elem_of_singleton; reflexivity|reflexivity].
  exists st'. split_and!; [exact Hrel|exact Hclosed|exact Htrace].
Defined.

(** With an empty mount root the descriptor is closed all the same, and the
    call panics before ingestion. *)
Lemma Release_drop_empty_mount :
  ∃ st',
    Release noPath failingDrop closes {| r := Some 7; f := Some 3 |} 0 state
    = (Panic, st')
    ∧ files st' !! 7 = None
    ∧ trace st' = [EvClose 7].
Proof. eexists. split_and!; reflexivity. Qed.

End HandleExamples.

(** ** More of the store: what is listed, what is resolved *)

Section StoreListing.

Import Store.

(** In a sorted bucket [seek] finds every entry. *)
Lemma elem_of_seek (k : string) (n : node) (b : bucket) :
  StronglySorted key_lt b.*1 → (k, n) ∈ b → seek k b = Some n.
Proof.
  induction b as [|[k0 n0] b IH]; simpl.
  - by intros _ ?%elem_of_nil.
  - intros [Hb Hk0]%StronglySorted_inv [Heq|Hin]%elem_of_cons.
    + injection Heq as -> ->. by rewrite String.eqb_refl.
    + rewrite compare_eqb.
      assert (key_lt k0 k) as Hlt.
      { rewrite Forall_forall in Hk0. apply Hk0.
        apply list_elem_of_fmap. by exists (k, n). }
      rewrite String.compare_antisym. unfold key_lt in Hlt. rewrite Hlt.
      by apply IH.
Qed.

Lemma wf_sorted (b : bucket) : wf b = true → StronglySorted key_lt b.*1.
Proof. intros [Hs _]%wf_unfold. by apply sortedb_StronglySorted. Qed.

Lemma cursor_nested_keys (k : string) (b : bucket) :
  k ∈ (filter (λ kv, kv.2 = None) (cursor b)).*1 ↔ ∃ c, (k, Nested c) ∈ b.
Proof.
  unfold cursor. rewrite list_elem_of_fmap. split.
  - intros ([k' v] & -> & [Hv Hin]%list_elem_of_filter). simpl in *. subst v.
    apply list_elem_of_fmap in Hin as ([k'' [v|c]] & Heq & Hin);
      simpl in Heq; [done|].
    injection Heq as ->. by exists c.
  - intros [c Hin]. exists (k, None). split; [done|].
    apply list_elem_of_filter. split; [done|].
    apply list_elem_of_fmap. by exists (k, Nested c).
Qed.

Lemma cursor_leaf_keys (k : string) (b : bucket) :
  k ∈ (filter (λ kv, is_Some kv.2) (cursor b)).*1 ↔ ∃ v, (k, Leaf v) ∈ b.
Proof.
  unfold cursor. rewrite list_elem_of_fmap. split.
  - intros ([k' v] & -> & [[v' Hv] Hin]%list_elem_of_filter). simpl in *.
    subst v.
    apply list_elem_of_fmap in Hin as ([k'' [v|c]] & Heq & Hin);
      simpl in Heq; [|done].
    injection Heq as -> ->. by exists v.
  - intros [v Hin]. exists (k, Some v). split; [done|].
    apply list_elem_of_filter. split; [by eexists|].
    apply list_elem_of_fmap. by exists (k, Leaf v).
Qed.

Lemma appendPlaylists_spec (a : list Dirent) (kvs : list (string * option string)) :
  appendPlaylists a kvs = a ++ (dirEntry <$> (filter (λ kv, kv.2 = None) kvs).*1).
Proof.
  unfold appendPlaylists. revert a.
  induction kvs as [|[k [v|]] kvs IH]; intros a; cbn [fold_left].
  - by rewrite app_nil_r.
  - rewrite IH, filter_cons_False; [done|]. simpl. congruence.
  - rewrite IH, filter_cons_True by done. cbn. by rewrite <- app_assoc.
Qed.

(** In a well-formed store a name is listed as a playlist exactly when it
    is a bucket below [Playlists]. *)
Lemma playlistNames_Bucket (root : bucket) (p : string) :
  wf root = true →
  p ∈ playlistNames root ↔ is_Some (playlistBucket root p).
Proof.
  intros Hwf. unfold playlistNames, playlistBucket.
  destruct (Bucket root "Playlists") as [pl|] eqn:Hpl; simpl.
  - rewrite cursor_nested_keys. unfold Bucket.
    pose proof (wf_sorted _ (wf_Bucket _ _ _ Hwf Hpl)) as Hs. split.
    + intros [c Hin]. rewrite (elem_of_seek _ _ _ Hs Hin). by eexists.
    + intros [c Hc].
      destruct (seek p pl) as [[v|c']|] eqn:Hseek; try done.
      exists c'. by apply seek_Some_elem_of.
  - split; [by intros ?%elem_of_nil|by intros [? ?]].
Qed.

Lemma playlistNames_sorted (root : bucket) :
  wf root = true → StronglySorted key_lt (playlistNames root).
Proof.
  intros Hwf. unfold playlistNames.
  destruct (Bucket root "Playlists") as [pl|] eqn:Hpl; [|constructor].
  apply StronglySorted_fmap_filter. rewrite cursor_keys.
  by apply wf_sorted, (wf_Bucket root pl "Playlists").
Qed.

(** X1: [ListPlaylists]. When the database cannot be opened, that error
    comes back with an empty list. Otherwise there is no error, and the list
    holds one directory entry per bucket below [Playlists] and nothing for
    the leaf values there; in a well-formed store the entries come in
    strictly increasing key order, and a name is among them exactly when
    [Playlists/<name>] is a bucket. *)
Theorem ListPlaylists_entries (w : World) :
  (∀ e, dbOpenErr w = Some e → ListPlaylists w = ([], Some e))
  ∧ (dbOpenErr w = None →
     ListPlaylists w = (dirEntry <$> playlistNames (dbRoot w), None)
     ∧ (Bucket (dbRoot w) "Playlists" = None → ListPlaylists w = ([], None))
     ∧ (wf (dbRoot w) = true →
        StronglySorted key_lt (playlistNames (dbRoot w))
        ∧ NoDup (playlistNames (dbRoot w))
        ∧ ∀ p, p ∈ playlistNames (dbRoot w)
               ↔ is_Some (playlistBucket (dbRoot w) p))).
Proof.
  unfold ListPlaylists, View, viewPlaylists. split.
  - by intros e ->.
  - intros ->. split_and!.
    + unfold playlistNames.
      destruct (Bucket (dbRoot w) "Playlists") as [pl|]; [|done].
      by rewrite appendPlaylists_spec.
    + by intros ->.
    + intros Hwf. pose proof (playlistNames_sorted _ Hwf) as Hs.
      split_and!; [done|by apply StronglySorted_lt_NoDup|].
      intros p. by apply playlistNames_Bucket.
Qed.

End StoreListing.

Section StoreAnswers.

Import Store.

Variable unmarshal : string → option PlaylistFile.

Lemma songKeys_record (root : bucket) (p s : string) :
  wf root = true → s ∈ songKeys root p ↔ is_Some (record root p s).
Proof.
  intros Hwf. unfold songKeys, record.
  destruct (Bucket root "Playlists") as [pl|] eqn:Hpl; simpl;
    [|split; [by intros ?%elem_of_nil|by intros [? ?]]].
  destruct (Bucket pl p) as [b|] eqn:Hb; simpl;
    [|split; [by intros ?%elem_of_nil|by intros [? ?]]].
  assert (StronglySorted key_lt b.*1) as Hs
    by eauto using wf_sorted, wf_Bucket.
  rewrite cursor_leaf_keys. unfold Get. split.
  - intros [v Hin]. rewrite (elem_of_seek _ _ _ Hs Hin). by eexists.
  - intros [v Hv]. destruct (seek s b) as [[v'|c]|] eqn:Hseek; try done.
    exists v'. by apply seek_Some_elem_of.
Qed.

(** The transaction of [GetPlaylistFilePath] succeeds exactly on a record
    that deserializes. *)
Lemma viewSongPath_readable (root : bucket) (p s : string) :
  match readable unmarshal root p s with
  | Some file => viewSongPath unmarshal p s root = (Path file, None)
  | None => ∃ e, viewSongPath unmarshal p s root = ("", Some e)
  end.
Proof.
  unfold readable. destruct (record root p s) as [bytes|] eqn:Hrec; simpl.
  - destruct (unmarshal bytes) as [file|] eqn:Hfile.
    + by apply viewSongPath_recorded with bytes.
    + eexists. by apply viewSongPath_unreadable with bytes.
  - by apply viewSongPath_no_record.
Qed.

Lemma GetPlaylistFilePath_readable (p s m : string) (w : World) (file : PlaylistFile) :
  dbOpenErr w = None → readable unmarshal (dbRoot w) p s = Some file →
  GetPlaylistFilePath unmarshal p s m w = Ret (Path file, None).
Proof.
  intros Hopen Hr. pose proof (viewSongPath_readable (dbRoot w) p s) as Hv.
  rewrite Hr in Hv. unfold GetPlaylistFilePath, View. by rewrite Hopen, Hv.
Qed.

Lemma GetPlaylistFilePath_unreadable_empty (p s : string) (w : World) :
  dbOpenErr w = None → readable unmarshal (dbRoot w) p s = None →
  GetPlaylistFilePath unmarshal p s EmptyString w = Panic.
Proof.
  intros Hopen Hr. pose proof (viewSongPath_readable (dbRoot w) p s) as Hv.
  rewrite Hr in Hv. destruct Hv as [e Hv].
  unfold GetPlaylistFilePath, View. by rewrite Hopen, Hv.
Qed.

Lemma GetPlaylistFilePath_closed_store (p s m : string) (w : World) (e : error) :
  dbOpenErr w = Some e → GetPlaylistFilePath unmarshal p s m w = Ret ("", Some e).
Proof. intros Hopen. unfold GetPlaylistFilePath. by rewrite Hopen. Qed.

(** X2: what [GetPlaylistFilePath] can answer. A path without error is
    either the path of the song's record, which then deserializes, or,
    when it does not, the fallback path below a non-empty mount root with a
    non-directory file at it. An error comes with the empty path and is
    either the error of opening the database or "File not exists." for a
    song that has no readable record and no file at the fallback path; the
    errors of the transaction itself are never returned. *)
Theorem GetPlaylistFilePath_answers (p s m : string) (w : World)
    (path : string) (err : option error) :
  GetPlaylistFilePath unmarshal p s m w = Ret (path, err) →
  match err with
  | None =>
      dbOpenErr w = None
      ∧ ((∃ file, readable unmarshal (dbRoot w) p s = Some file
                  ∧ path = Path file)
         ∨ (readable unmarshal (dbRoot w) p s = None
            ∧ m ≠ EmptyString
            ∧ path = fallbackPath m p s
            ∧ isFile w path = true))
  | Some e =>
      path = EmptyString
      ∧ (dbOpenErr w = Some e
         ∨ (dbOpenErr w = None
            ∧ readable unmarshal (dbRoot w) p s = None
            ∧ m ≠ EmptyString
            ∧ e = ErrorsNew "File not exists."
            ∧ isFile w (fallbackPath m p s) = false))
  end.
Proof.
  destruct (dbOpenErr w) as [e0|] eqn:Hopen.
  { rewrite (GetPlaylistFilePath_closed_store p s m w e0 Hopen).
    intros [= <- <-]. split; [done|by left]. }
  destruct (readable unmarshal (dbRoot w) p s) as [file|] eqn:Hr.
  { rewrite (GetPlaylistFilePath_readable p s m w file Hopen Hr).
    intros [= <- <-]. split; [done|]. left. by exists file. }
  destruct (decide (m = EmptyString)) as [->|Hm].
  { by rewrite (GetPlaylistFilePath_unreadable_empty p s w Hopen Hr). }
  pose proof (viewSongPath_readable (dbRoot w) p s) as Hv.
  rewrite Hr in Hv. destruct Hv as [e Hv].
  rewrite (GetPlaylistFilePath_fallback unmarshal p s m w e Hm Hopen Hv).
  destruct (isFile w (fallbackPath m p s)) eqn:Hfile.
  - intros [= <- <-]. split; [done|]. by right.
  - intros [= <- <-]. split; [done|]. by right.
Qed.

Lemma ListPlaylistSongs_mounted (p m : string) (w : World) :
  m ≠ EmptyString → dbOpenErr w = None →
  ListPlaylistSongs p m w
  = Ret ((fileEntry <$> songKeys (dbRoot w) p)
           ++ (fileEntry <$> diskNames w m p), None).
Proof.
  intros Hm Hopen. unfold ListPlaylistSongs, View.
  rewrite Hopen, viewSongs_spec.
  destruct (index_last m Hm) as (c & Hc & _). rewrite Hc. simpl.
  by rewrite (slashed_index m c Hc), appendFiles_spec.
Qed.


(** X4: the listing and the resolver agree on what the store holds. In a
    well-formed store, below a non-empty mount root, [ListPlaylistSongs]
    lists a name exactly when the song has a record under the playlist or
    a non-directory file of that name is in the playlist's directory; and a
    song with a record that deserializes is both listed and resolved to the
    recorded path. *)
Theorem listed_iff_recorded (p s m : string) (w : World) :
  wf (dbRoot w) = true →
  dbOpenErr w = None →
  m ≠ EmptyString →
  ∃ l,
    ListPlaylistSongs p m w = Ret (l, None)
    ∧ (fileEntry s ∈ l
       ↔ is_Some (record (dbRoot w) p s) ∨ s ∈ diskNames w m p)
    ∧ (∀ file, readable unmarshal (dbRoot w) p s = Some file →
         fileEntry s ∈ l
         ∧ GetPlaylistFilePath unmarshal p s m w = Ret (Path file, None)).
Proof.
  intros Hwf Hopen Hm. eexists. split; [by apply ListPlaylistSongs_mounted|].
  assert (∀ L : list string, fileEntry s ∈ fileEntry <$> L ↔ s ∈ L) as Hinj.
  { intros L. rewrite list_elem_of_fmap. split.
    - by intros (s' & [= ->] & ?).
    - intros ?. by exists s. }
  split.
  - by rewrite elem_of_app, !Hinj, (songKeys_record _ _ _ Hwf).
  - intros file Hr. split; [|by apply GetPlaylistFilePath_readable].
    rewrite elem_of_app, !Hinj, (songKeys_record _ _ _ Hwf). left.
    unfold readable in Hr. by destruct (record (dbRoot w) p s).
Qed.

End StoreAnswers.

(** ** More of the store: what creating a playlist does and does not do *)

Section CreateMore.

Import Store.

Lemma put_put_other (k : string) (n n' : node) (b : bucket) :
  put k n (put k n' b) = put k n b.
Proof.
  induction b as [|[k0 n0] b IH]; simpl.
  - by rewrite compare_refl.
  - destruct (String.compare k k0) eqn:Hc; simpl.
    + by rewrite compare_refl.
    + by rewrite compare_refl.
    + by rewrite Hc, IH.
Qed.

Lemma put_elem_of (k k' : string) (n n' : node) (b : bucket) :
  (k', n') ∈ put k n b → (k', n') = (k, n) ∨ (k', n') ∈ b.
Proof.
  induction b as [|[k0 n0] b IH]; simpl.
  - intros ->%list_elem_of_singleton. by left.
  - destruct (String.compare k k0) eqn:Hc; rewrite !elem_of_cons.
    + intros [?|?]; [by left|]. right. by right.
    + intros [?|[?|?]]; [by left|right; by left|right; by right].
    + intros [?|Hin]; [right; by left|].
      destruct (IH Hin) as [?|?]; [by left|right; by right].
Qed.

(** [put] keeps a bucket well formed. *)
Lemma wf_put (k : string) (n : node) (b : bucket) :
  wf b = true → wf_node n = true → wf (put k n b) = true.
Proof.
  intros Hwf Hn. pose proof (wf_sorted _ Hwf) as Hs.
  apply wf_unfold in Hwf as [_ Hnodes]. apply wf_unfold. split.
  - by apply sortedb_StronglySorted, put_sorted.
  - intros k' n' [[= -> ->]|Hin]%put_elem_of; [done|]. by apply (Hnodes k').
Qed.

(** The update transaction goes through exactly for a name that can be
    created, and then leaves [withPlaylist]. *)
Lemma updatePlaylist_creatable (name : string) (tx : bucket) :
  match updatePlaylist name tx with
  | (tx', None) => creatable tx name ∧ tx' = withPlaylist tx name
  | (_, Some e) =>
      ¬ creatable tx name
      ∧ (holdsLeaf tx "Playlists" → e = ErrIncompatibleValue)
      ∧ (¬ holdsLeaf tx "Playlists" → name = EmptyString →
         e = ErrBucketNameRequired)
      ∧ (¬ holdsLeaf tx "Playlists" → name ≠ EmptyString →
         e = ErrIncompatibleValue)
  end.
Proof.
  unfold updatePlaylist, creatable, withPlaylist, CreateBucketIfNotExists,
    Bucket, holdsLeaf.
  simpl String.eqb.
  destruct (seek "Playlists" tx) as [[v|pl]|] eqn:Hpl; simpl.
  - split_and!; [|done|..].
    + intros (_ & Hno & _). apply Hno. by exists v.
    + intros Hno. exfalso. apply Hno. by exists v.
    + intros Hno. exfalso. apply Hno. by exists v.
  - destruct (String.eqb_spec name "") as [->|Hname].
    { split_and!; [by intros [? _]|by intros [? [=]]|done|done]. }
    destruct (seek name pl) as [[v|c]|] eqn:Hn.
    + split_and!; [|by intros [? [=]]|done|done].
      intros (_ & _ & Hno). apply (Hno pl eq_refl). by exists v.
    + split; [|done]. split_and!; [done|by intros [? [=]]|].
      intros pl' [= <-]. rewrite Hn. by intros [? [=]].
    + split; [|done]. split_and!; [done|by intros [? [=]]|].
      intros pl' [= <-]. rewrite Hn. by intros [? [=]].
  - destruct (String.eqb_spec name "") as [->|Hname].
    { split_and!; [by intros [? _]|by intros [? [=]]|done|done]. }
    simpl. rewrite put_put_other. split; [|done].
    split_and!; [done|by intros [? [=]]|done].
Qed.

Lemma Bucket_put_eq (k : string) (c : bucket) (b : bucket) :
  Bucket (put k (Nested c) b) k = Some c.
Proof. unfold Bucket. by rewrite seek_put_eq. Qed.

Lemma Bucket_put_ne (k k' : string) (n : node) (b : bucket) :
  k' ≠ k → Bucket (put k n b) k' = Bucket b k'.
Proof. intros Hne. unfold Bucket. by rewrite seek_put_ne. Qed.

(** Below [withPlaylist] every playlist has the bucket it had, and the new
    one an empty bucket. *)
Lemma withPlaylist_bucket (root : bucket) (name p : string) :
  creatable root name →
  playlistBucket (withPlaylist root name) p
  = if String.eqb p name
    then Some (default [] (playlistBucket root name))
    else playlistBucket root p.
Proof.
  intros (_ & _ & Hno).
  unfold playlistBucket, withPlaylist. rewrite Bucket_put_eq. simpl.
  destruct (Bucket root "Playlists") as [pl|] eqn:Hpl; simpl.
  - destruct (String.eqb_spec p name) as [->|Hne].
    + unfold Bucket. destruct (seek name pl) as [[v|c]|] eqn:Hn.
      * exfalso. apply (Hno pl eq_refl). by exists v.
      * by rewrite Hn.
      * by rewrite seek_put_eq.
    + destruct (seek name pl) as [n|] eqn:Hn; [done|].
      by rewrite Bucket_put_ne.
  - unfold Bucket. simpl. by destruct (String.eqb p name).
Qed.

Variable unmarshal : string → option PlaylistFile.
Variable getCompatibleString : string → string.




Lemma withPlaylist_wf (root : bucket) (name : string) :
  wf root = true → wf (withPlaylist root name) = true.
Proof.
  intros Hwf. unfold withPlaylist. apply wf_put; [done|].
  assert (wf (default [] (Bucket root "Playlists")) = true) as Hpl.
  { destruct (Bucket root "Playlists") as [pl|] eqn:Hpl; [|done].
    by apply (wf_Bucket root pl "Playlists"). }
  destruct (seek name _); [done|]. by apply wf_put.
Qed.

(** In a well-formed store nothing is written for a playlist that is
    there. *)
Lemma withPlaylist_existing (root : bucket) (name : string) :
  wf root = true → is_Some (playlistBucket root name) →
  withPlaylist root name = root.
Proof.
  intros Hwf [b Hb]. unfold playlistBucket in Hb. unfold withPlaylist.
  destruct (Bucket root "Playlists") as [pl|] eqn:Hpl; [|done].
  simpl in *. unfold Bucket in Hb, Hpl.
  destruct (seek name pl) as [[v|c]|]; try done.
  apply put_seek_id; [by apply wf_sorted|].
  by destruct (seek "Playlists" root) as [[v|c']|]; simplify_eq.
Qed.

(** The two outcomes of [CreatePlaylist]. *)
Lemma CreatePlaylist_cases (n m : string) (w : World) :
  let name := getCompatibleString n in
  (∃ e, CreatePlaylist getCompatibleString n m w = (("", Some e), w, [])
        ∧ (dbOpenErr w = Some e
           ∨ (dbOpenErr w = None
              ∧ (updatePlaylist name (dbRoot w)).2 = Some e)
           ∨ (dbOpenErr w = None ∧ creatable (dbRoot w) name
              ∧ dbCommitErr w = Some e)))
  ∨ (dbOpenErr w = None ∧ dbCommitErr w = None
     ∧ creatable (dbRoot w) name
     ∧ CreatePlaylist getCompatibleString n m w
       = ((name, None),
          {| dbOpenErr := dbOpenErr w; dbRoot := withPlaylist (dbRoot w) name;
             dbCommitErr := dbCommitErr w;
             osStat := osStat w; ioReadDir := ioReadDir w |},
          [RegeneratePlaylistFile name m])).
Proof.
  intros name. unfold CreatePlaylist, Update. fold name.
  destruct (dbOpenErr w) as [e|] eqn:Hopen; [left; eauto|].
  pose proof (updatePlaylist_creatable name (dbRoot w)) as Hupd.
  destruct (updatePlaylist name (dbRoot w)) as [tx' [e|]] eqn:Heq.
  { left. exists e. split; [done|]. right. left. by rewrite ?Heq. }
  destruct Hupd as [Hc ->].
  destruct (dbCommitErr w) as [e|] eqn:Hcommit.
  { left. exists e. split; [done|]. right. by right. }
  by right.
Qed.




(** X6: [CreatePlaylist] keeps the store well formed: keys stay in strictly
    increasing byte order in every bucket. *)
Theorem CreatePlaylist_wf (n m : string) (w w1 : World)
    (r : string * option error) (t : list event) :
  CreatePlaylist getCompatibleString n m w = (r, w1, t) →
  wf (dbRoot w) = true → wf (dbRoot w1) = true.
Proof.
  intros Hcreate Hwf.
  destruct (CreatePlaylist_cases n m w)
    as [(e & Heq & _)|(Hopen & Hcommit & Hc & Heq)];
    rewrite Heq in Hcreate; injection Hcreate as <- <- <-; [done|].
  by apply withPlaylist_wf.
Qed.

(** X7: creating a playlist that exists writes nothing. In a well-formed
    store that opens and commits, if [Playlists/<normalized name>] is a
    bucket and the normalized name is not empty, [CreatePlaylist] returns
    the normalized name, leaves every bucket exactly as it was, and still
    asks for the playlist file to be regenerated. *)
Theorem CreatePlaylist_existing (n m : string) (w : World) :
  wf (dbRoot w) = true →
  dbOpenErr w = None →
  dbCommitErr w = None →
  getCompatibleString n ≠ EmptyString →
  is_Some (playlistBucket (dbRoot w) (getCompatibleString n)) →
  CreatePlaylist getCompatibleString n m w
  = ((getCompatibleString n, None), w,
     [RegeneratePlaylistFile (getCompatibleString n) m]).
Proof.
  intros Hwf Hopen Hcommit Hname Hex.
  destruct (CreatePlaylist_cases n m w)
    as [(e & Heq & Hwhy)|(_ & _ & Hc & Heq)].
  - exfalso. pose proof Hex as [b Hb]. unfold playlistBucket in Hb.
    destruct (Bucket (dbRoot w) "Playlists") as [pl|] eqn:Hpl; [|done].
    simpl in Hb.
    assert (creatable (dbRoot w) (getCompatibleString n)) as Hc.
    { split_and!; [done| |].
      - intros [v Hv]. unfold Bucket in Hpl. by rewrite Hv in Hpl.
      - intros pl' Hpl' [v Hv]. rewrite Hpl in Hpl'. injection Hpl' as <-.
        unfold Bucket in Hb. by rewrite Hv in Hb. }
    destruct Hwhy as [?|[[_ Hu]|(_ & _ & ?)]]; [congruence| |congruence].
    pose proof (updatePlaylist_creatable (getCompatibleString n) (dbRoot w)) as H.
    destruct (updatePlaylist _ _) as [tx' [e'|]]; [|done].
    by destruct H as [H _].
  - rewrite Heq, (withPlaylist_existing _ _ Hwf Hex). by destruct w.
Qed.

(** X8: a playlist that has been created is listed. After a successful
    [CreatePlaylist] on a well-formed store, [ListPlaylists] lists the
    normalized name, and lists any other name exactly when it listed it
    before. *)
Theorem CreatePlaylist_listed (n m : string) (w w1 : World) (t : list event) :
  wf (dbRoot w) = true →
  CreatePlaylist getCompatibleString n m w
    = ((getCompatibleString n, None), w1, t) →
  ∀ p,
    dirEntry p ∈ (ListPlaylists w1).1
    ↔ p = getCompatibleString n ∨ dirEntry p ∈ (ListPlaylists w).1.
Proof.
  intros Hwf Hcreate p.
  destruct (CreatePlaylist_cases n m w)
    as [(e & Heq & _)|(Hopen & Hcommit & Hc & Heq)];
    rewrite Heq in Hcreate; [done|]. injection Hcreate as <- <-.
  assert (∀ w', dbOpenErr w' = None →
            (ListPlaylists w').1 = dirEntry <$> playlistNames (dbRoot w'))
    as Hlist.
  { intros w' Ho. unfold ListPlaylists, View, viewPlaylists, playlistNames.
    rewrite Ho. destruct (Bucket (dbRoot w') "Playlists"); [|done].
    simpl. by rewrite appendPlaylists_spec. }
  assert (∀ L : list string, dirEntry p ∈ dirEntry <$> L ↔ p ∈ L) as Hinj.
  { intros L. rewrite list_elem_of_fmap. split.
    - by intros (p' & [= ->] & ?).
    - intros ?. by exists p. }
  rewrite !Hlist, !Hinj by done. simpl.
  rewrite !playlistNames_Bucket by (done || by apply withPlaylist_wf).
  rewrite (withPlaylist_bucket _ _ _ Hc).
  destruct (String.eqb_spec p (getCompatibleString n)) as [->|Hne].
  - split; [by left|]. intros _. by eexists.
  - split; [by right|]. by intros [?|?].
Qed.

(** X9: when [CreatePlaylist] refuses. With a database that opens and
    commits, the call succeeds exactly when the normalized name is not
    empty and neither [Playlists] nor [Playlists/<name>] holds a leaf
    value. An empty normalized name is refused with bolt's
    ErrBucketNameRequired, a name under which [Playlists] holds a song's
    bytes with ErrIncompatibleValue; a refusal returns the empty name,
    changes nothing and asks for no regeneration. *)
Theorem CreatePlaylist_refusals (n m : string) (w w1 : World)
    (r : string * option error) (t : list event) :
  dbOpenErr w = None →
  dbCommitErr w = None →
  CreatePlaylist getCompatibleString n m w = (r, w1, t) →
  (r.2 = None ↔ creatable (dbRoot w) (getCompatibleString n))
  ∧ (r.2 ≠ None → r.1 = EmptyString ∧ w1 = w ∧ t = [])
  ∧ (¬ holdsLeaf (dbRoot w) "Playlists" →
     getCompatibleString n = EmptyString →
     r = ("", Some ErrBucketNameRequired))
  ∧ (∀ pl, Bucket (dbRoot w) "Playlists" = Some pl →
     getCompatibleString n ≠ EmptyString →
     holdsLeaf pl (getCompatibleString n) →
     r = ("", Some ErrIncompatibleValue)).
Proof.
  intros Hopen Hcommit Hcreate.
  pose proof (updatePlaylist_creatable (getCompatibleString n) (dbRoot w)) as Hupd.
  destruct (CreatePlaylist_cases n m w)
    as [(e & Heq & Hwhy)|(_ & _ & Hc & Heq)];
    rewrite Heq in Hcreate; injection Hcreate as <- <- <-; simpl.
  - destruct Hwhy as [?|[[_ Hu]|(_ & _ & ?)]]; [congruence| |congruence].
    destruct (updatePlaylist _ _) as [tx' [e'|]]; simpl in Hu; [|done].
    injection Hu as ->. destruct Hupd as (Hnc & Hleaf & Hempty & Hother).
    split_and!; [done|done| |].
    + intros Hno Hname. by rewrite (Hempty Hno Hname).
    + intros pl Hpl Hname Hl. rewrite Hother; [done| |done].
      intros [v Hv]. unfold Bucket in Hpl. by rewrite Hv in Hpl.
  - split_and!; [done|done| |].
    + intros _ Hname. by destruct Hc as [? _].
    + intros pl Hpl _ Hl. destruct Hc as (_ & _ & Hno). by destruct (Hno pl Hpl).
Qed.

End CreateMore.

(** ** More of the handle layer: release *)

Section ReleaseMore.

Import Main.

Variable GetFilePath : string → string → string → string * option error.
Variable HandleDrop : string → option error.
Variable closeErr : fd → option error.

Local Abbreviation Release := (Main.Release GetFilePath HandleDrop closeErr).

Lemma len_lt_1 (s : string) : (len s <? 1)%Z = true ↔ s = EmptyString.
Proof.
  unfold len. destruct s as [|a s]; simpl String.length.
  - done.
  - split; [|done]. intros ?%Z.ltb_lt. lia.
Qed.

Lemma len_lt_1_false (s : string) : (len s <? 1)%Z = false ↔ s ≠ EmptyString.
Proof.
  rewrite <- len_lt_1. by destruct (len s <? 1)%Z.
Qed.

(** The test for a special name looks at no byte that is not there, and
    holds exactly for the special names. *)
Lemma isMacSpecial_total (nm : string) (st : State) :
  ∃ b, isMacSpecial nm st = (Ret b, st) ∧ (b = true ↔ specialName nm).
Proof.
  destruct nm as [|c0 [|c1 rest]].
  - exists false. split; [done|]. split; [done|]. by intros [[? ?]|?].
  - exists false. split; [done|]. split; [done|]. by intros [[? ?]|?].
  - unfold isMacSpecial.
    destruct (1 <? len (String c0 (String c1 rest)))%Z eqn:Hlt;
      [|unfold len in Hlt; simpl String.length in Hlt;
        apply Z.ltb_ge in Hlt; lia].
    unfold bind, lift. rewrite index_first_cons.
    destruct (Ascii.eqb_spec c0 ".") as [->|Hc0].
    + rewrite index_second_cons.
      destruct (Ascii.eqb_spec c1 "_") as [->|Hc1].
      * exists true. split; [done|]. split; [|done]. intros _. left. by eexists.
      * eexists. split; [done|]. unfold specialName.
        rewrite String.eqb_eq. split; [by right|].
        intros [[rest' [= -> _]]|?]; done.
    + exists false. split; [done|]. split; [done|].
      intros [[rest' [= -> _]]|[= -> _]]; done.
Qed.

(** X10: releasing a handle that has no descriptor. On an existing node,
    whatever its name, the empty name included, the call neither panics nor
    returns an error: it returns nil, or waits for the node's mutex. It
    leaves the state as it found it unless the name is special, the handle
    write-capable and the mutex free. A handle that has no node panics. *)
Theorem Release_no_descriptor (l : loc) (n : File) (st : State) (fl : N) :
  heap st !! l = Some n →
  ((Release {| r := None; f := Some l |} fl st).1 = Ret None
   ∨ (Release {| r := None; f := Some l |} fl st = (Blocked, st)
      ∧ mu n = true))
  ∧ (¬ specialName (name n) ∨ IsReadOnly fl = true →
     Release {| r := None; f := Some l |} fl st = (Ret None, st))
  ∧ Release {| r := None; f := None |} fl st = (Panic, st).
Proof.
  intros Hn. split_and!; [| |done].
  - unfold Main.Release, deref, load, bind. simpl. rewrite Hn.
    destruct (String.eqb (name n) ".description"); [by left|].
    destruct (isMacSpecial_total (name n) st) as (b & -> & Hb).
    destruct b; [|by left].
    destruct (IsReadOnly fl); [by left|].
    destruct (mu n) eqn:Hmu.
    + right. by rewrite (Lock_held l n st Hn Hmu).
    + left. rewrite (Lock_free l n st Hn Hmu).
      unfold store. simpl. rewrite lookup_insert_eq.
      erewrite Unlock_spec; [done|]. simpl. apply lookup_insert_eq.
  - intros Hquiet. unfold Main.Release, deref, load, bind. simpl. rewrite Hn.
    destruct (String.eqb (name n) ".description"); [done|].
    destruct (isMacSpecial_total (name n) st) as (b & -> & Hb).
    destruct b; [|done].
    destruct Hquiet as [Hns| ->]; [|done].
    exfalso. by apply Hns, Hb.
Qed.

(** X11: the writer count is a [uint] and goes below zero by wrapping.
    Releasing a write-capable handle on a special file whose count is zero
    leaves the count at 2^64-1 and keeps the buffer as it is. *)
Theorem Release_special_underflow (l : loc) (n : File) (st : State) (fl : N) :
  heap st !! l = Some n →
  specialName (name n) →
  IsReadOnly fl = false →
  mu n = false →
  writers n = 0%Z →
  ∃ st' n',
    Release {| r := None; f := Some l |} fl st = (Ret None, st')
    ∧ heap st' !! l = Some n'
    ∧ writers n' = (2 ^ uintBits - 1)%Z
    ∧ data n' = data n.
Proof.
  intros Hn Hsp Hro Hmu Hw.
  eexists _, (released n). split; [by apply Release_special_write|].
  simpl. split_and!; [apply lookup_insert_eq| |].
  - unfold released. simpl. by rewrite Hw.
  - unfold released. simpl. by rewrite Hw.
Qed.

(** With a descriptor and no node, or a node without artist or album, the
    descriptor is closed and the answer is the close's. *)
Lemma Release_nil_node (d : fd) (st : State) (fl : N) :
  Release {| r := Some d; f := None |} fl st
  = (Ret (closeResult closeErr st d), closed st d []).
Proof. reflexivity. Qed.

Lemma Release_contextless (l : loc) (n : File) (d : fd) (st : State) (fl : N) :
  heap st !! l = Some n → artist n ≠ "drop" →
  artist n = EmptyString ∨ album n = EmptyString →
  Release {| r := Some d; f := Some l |} fl st
  = (Ret (closeResult closeErr st d), closed st d []).
Proof.
  intros Hn Hdrop Hctx. unfold Main.Release, deref, load, bind, ret. simpl.
  rewrite Hn. simpl. apply String.eqb_neq in Hdrop as ->. rewrite Hn.
  assert (((len (artist n) <? 1) || (len (album n) <? 1))%Z = true) as ->.
  { apply orb_true_iff. rewrite !len_lt_1. done. }
  done.
Qed.

(** A song: closed, its path resolved, its tags rewritten if it has any. *)
Lemma Release_song (l : loc) (n : File) (d : fd) (st : State) (fl : N) :
  heap st !! l = Some n → isSong n →
  Release {| r := Some d; f := Some l |} fl st
  = (Ret (match (GetFilePath (artist n) (album n) (name n)).2 with
          | Some e => Some e
          | None => closeResult closeErr st d
          end),
     closed st d
       (if tagged GetFilePath n
        then [EvSetMp3Tags (artist n) (album n) (song n)
                (GetFilePath (artist n) (album n) (name n)).1]
        else [])).
Proof.
  intros Hn (Hdrop & Hartist & Halbum).
  unfold Main.Release, deref, load, bind, ret. simpl.
  rewrite Hn. simpl. apply String.eqb_neq in Hdrop as ->. rewrite Hn.
  apply len_lt_1_false in Hartist as ->. apply len_lt_1_false in Halbum as ->.
  simpl. unfold tagged.
  destruct (GetFilePath (artist n) (album n) (name n)) as [songPath [e|]];
    simpl; [done|].
  destruct (String.eqb (artist n) "playlist"); simpl; [done|].
  destruct (String.eqb (Ext (name n)) ".mp3"); simpl; [|done].
  unfold closed, emit. simpl. by rewrite <- app_assoc.
Qed.


(** Every release of a handle with a descriptor, at a glance. *)
Lemma Release_with_descriptor (pf : option loc) (d : fd) (st : State) (fl : N) :
  (∀ l, pf = Some l → is_Some (heap st !! l)) →
  ∃ o rest,
    Release {| r := Some d; f := pf |} fl st = (o, closed st d rest)
    ∧ o ≠ Blocked
    ∧ (∀ d', EvClose d' ∉ rest)
    ∧ length rest ≤ 1.
Proof.
  intros Hnode. destruct pf as [l|].
  2:{ eexists _, []. split; [apply Release_nil_node|].
      split_and!; [done| |simpl; lia]. by intros d' ?%elem_of_nil. }
  destruct (Hnode l eq_refl) as [n Hn].
  destruct (decide (artist n = "drop")) as [Hdrop|Hdrop].
  - destruct (decide (mPoint n = EmptyString)) as [Hm|Hm].
    + eexists _, []. split; [by eapply Release_drop_unmounted|].
      split_and!; [done| |simpl; lia]. by intros d' ?%elem_of_nil.
    + eexists _, [_]. split; [by eapply Release_drop_mounted|].
      split_and!; [done| |simpl; lia]. by intros d' [=]%list_elem_of_singleton.
  - destruct (decide (artist n = EmptyString)) as [Ha|Ha];
      [|destruct (decide (album n = EmptyString)) as [Hb|Hb]].
    + eexists _, []. split; [eapply Release_contextless; eauto|].
      split_and!; [done| |simpl; lia]. by intros d' ?%elem_of_nil.
    + eexists _, []. split; [eapply Release_contextless; eauto|].
      split_and!; [done| |simpl; lia]. by intros d' ?%elem_of_nil.
    + eexists _, _. split; [by eapply Release_song|].
      split_and!; [done| |].
      * intros d'. destruct (tagged GetFilePath n).
        -- by intros [=]%list_elem_of_singleton.
        -- by intros ?%elem_of_nil.
      * destruct (tagged GetFilePath n); simpl; lia.
Qed.

(** X12: a handle with a descriptor never leaks it. Whatever the node is
    (none, drop area, song, anything else), [Release] closes the descriptor
    before anything else and exactly once, also when it goes on to panic
    or to return an error; it never waits for a mutex and changes no
    node. *)
Theorem Release_closes_descriptor (pf : option loc) (d : fd) (st : State) (fl : N) :
  (∀ l, pf = Some l → is_Some (heap st !! l)) →
  ∃ o st' rest,
    Release {| r := Some d; f := pf |} fl st = (o, st')
    ∧ o ≠ Blocked
    ∧ files st' !! d = None
    ∧ files st' = delete d (files st)
    ∧ heap st' = heap st
    ∧ trace st' = trace st ++ EvClose d :: rest
    ∧ (∀ d', EvClose d' ∉ rest).
Proof.
  intros Hnode.
  destruct (Release_with_descriptor pf d st fl Hnode)
    as (o & rest & Heq & Hnb & Hclose & _).
  exists o, (closed st d rest), rest.
  split_and!; [done|done|apply lookup_delete_eq|done..].
Qed.


(** X14: what a release outside the drop area returns. Without a node, or
    with a node that lacks artist or album, it is the close's own result.
    For a song it is the error of resolving the song's path when there is
    one, even though the descriptor has been closed and whatever the close
    returned, and the close's result otherwise; rewriting the tags never
    changes it. *)
Theorem Release_answer (l : loc) (n : File) (d : fd) (st : State) (fl : N) :
  heap st !! l = Some n →
  artist n ≠ "drop" →
  (Release {| r := Some d; f := None |} fl st).1
    = Ret (closeResult closeErr st d)
  ∧ (artist n = EmptyString ∨ album n = EmptyString →
     (Release {| r := Some d; f := Some l |} fl st).1
       = Ret (closeResult closeErr st d))
  ∧ (artist n ≠ EmptyString → album n ≠ EmptyString →
     (∀ e, (GetFilePath (artist n) (album n) (name n)).2 = Some e →
        (Release {| r := Some d; f := Some l |} fl st).1 = Ret (Some e))
     ∧ ((GetFilePath (artist n) (album n) (name n)).2 = None →
        (Release {| r := Some d; f := Some l |} fl st).1
          = Ret (closeResult closeErr st d))).
Proof.
  intros Hn Hdrop. split_and!.
  - by rewrite Release_nil_node.
  - intros Hctx. by erewrite Release_contextless.
  - intros Ha Hb. erewrite Release_song; [|done|done]. simpl.
    split; [by intros e ->|by intros ->].
Qed.

End ReleaseMore.

(** ** More of the handle layer: attributes and open *)

Section AttrOpenMore.

Import Main.

Variable GetFilePath : string → string → string → string * option error.
Variable GetDescription : string → string → string → string * option error.
Variable GetSpecialFile : string → string → string → string * option error.
Variable HandleDrop : string → option error.
Variable GOOS : string.
Variable osOpenErr : string → option error.
Variable statFile : string → Z * option error.
Variable closeErr : fd → option error.

Local Abbreviation Attr := (Main.Attr GetFilePath GetDescription GetSpecialFile
                              osOpenErr statFile closeErr).
Local Abbreviation Open := (Main.Open GetFilePath GOOS osOpenErr).
Local Abbreviation Release := (Main.Release GetFilePath HandleDrop closeErr).

Lemma set_mu_back (n : File) : mu n = false → set_mu false (set_mu true n) = n.
Proof. destruct n. simpl. by intros ->. Qed.

Lemma Attr_no_node (l : loc) (a : Attr_) (st : State) :
  heap st !! l = None → Attr l a st = (Panic, st).
Proof. intros Hn. unfold Main.Attr, bind, load. by rewrite Hn. Qed.

Lemma Attr_description (l : loc) (n : File) (a : Attr_) (st : State) :
  heap st !! l = Some n → name n = ".description" →
  Attr l a st
  = (Ret (match GetDescription (artist n) (album n) (name n) with
          | (_, Some e) => (a, Some e)
          | (d, None) => ({| Size := len d; Mode := octal 4 4 4 |}, None)
          end), st).
Proof.
  intros Hn Hname. unfold Main.Attr, bind, load, lift. rewrite Hn, Hname.
  simpl. by destruct (GetDescription _ _ _) as [d [e|]].
Qed.

Lemma Attr_special_blocked (l : loc) (n : File) (a : Attr_) (st : State) rest :
  heap st !! l = Some n → name n = String "." rest →
  name n ≠ ".description" → mu n = true →
  Attr l a st = (Blocked, st).
Proof.
  intros Hn Hname Hne Hmu. apply String.eqb_neq in Hne.
  unfold Main.Attr, bind at 1 2, load at 1, lift. rewrite Hn.
  rewrite Hne. rewrite Hname at 1. rewrite index_first_cons. simpl.
  unfold bind. by rewrite (Lock_held l n st Hn Hmu).
Qed.

Lemma Attr_special (l : loc) (n : File) (a : Attr_) (st : State) rest :
  heap st !! l = Some n → name n = String "." rest →
  name n ≠ ".description" → mu n = false →
  Attr l a st
  = (Ret (if (writers n =? 0)%Z
          then match GetSpecialFile (artist n) (album n) (name n) with
               | (b, None) => ({| Size := len b; Mode := octal 6 6 6 |}, None)
               | (_, Some e) =>
                   ({| Size := lenBytes (data n); Mode := octal 6 6 6 |}, Some e)
               end
          else ({| Size := lenBytes (data n); Mode := octal 6 6 6 |}, None)),
     withTrace st [EvLock l; EvUnlock l]).
Proof.
  intros Hn Hname Hne Hmu. apply String.eqb_neq in Hne.
  unfold Main.Attr, bind at 1 2, load at 1, lift. rewrite Hn.
  rewrite Hne. rewrite Hname at 1. rewrite index_first_cons. simpl.
  unfold bind at 1. rewrite (Lock_free l n st Hn Hmu).
  assert (∀ x : Attr_ * option error,
    bind (Unlock l) (λ _, ret x)
      {| heap := <[l:=set_mu true n]> (heap st); files := files st;
         nextFd := nextFd st; trace := trace st ++ [EvLock l] |}
    = (Ret x, withTrace st [EvLock l; EvUnlock l])) as Hunlock.
  { intros x. unfold bind. erewrite Unlock_spec by apply lookup_insert_eq.
    unfold ret, withTrace. simpl.
    rewrite insert_insert_eq, (set_mu_back n Hmu), (insert_id _ _ _ Hn).
    by rewrite <- app_assoc. }
  destruct (writers n =? 0)%Z.
  - destruct (GetSpecialFile _ _ _) as [b [e|]]; apply Hunlock.
  - apply Hunlock.
Qed.

Lemma Attr_ordinary (l : loc) (n : File) (a : Attr_) (st : State) c rest :
  heap st !! l = Some n → name n = String c rest → c ≠ "."%char →
  Attr l a st
  = match GetFilePath (artist n) (album n) (name n) with
    | (_, Some e) => (Ret (a, Some e), st)
    | (songPath, None) =>
        match osOpenErr songPath with
        | Some e => (Ret (a, Some e), st)
        | None =>
            (Ret (match statFile songPath with
                  | (_, Some e) => (a, Some e)
                  | (size, None) =>
                      ({| Size := size; Mode := octal 7 7 7 |}, None)
                  end),
             {| heap := heap st;
                files := delete (nextFd st) (<[nextFd st := songPath]> (files st));
                nextFd := S (nextFd st);
                trace := trace st ++ [EvClose (nextFd st)] |})
        end
    end.
Proof.
  intros Hn Hname Hc. apply Ascii.eqb_neq in Hc.
  unfold Main.Attr, bind at 1 2, load at 1, lift. rewrite Hn.
  rewrite Hname at 1. rewrite index_first_cons. simpl. rewrite Hc.
  destruct (GetFilePath _ _ _) as [songPath [e|]]; [done|].
  unfold bind, osOpen. destruct (osOpenErr songPath) as [e|]; [done|].
  unfold Stat. simpl. rewrite lookup_insert_eq.
  by destruct (statFile songPath) as [size [e|]].
Qed.

(** The kinds of name [Attr] and [Open] tell apart. *)
Lemma name_cases (s : string) :
  s = EmptyString
  ∨ s = ".description"
  ∨ (∃ rest, s = String "." rest ∧ s ≠ ".description")
  ∨ (∃ c rest, s = String c rest ∧ c ≠ "."%char).
Proof.
  destruct s as [|c rest]; [by left|]. right.
  destruct (Ascii.eqb_spec c ".") as [->|Hc].
  - destruct (String.eqb_spec (String "." rest) ".description") as [->|Hne].
    + by left.
    + right. left. by exists rest.
  - right. right. by exists c, rest.
Qed.


Lemma Attr_state (l : loc) (a : Attr_) (st : State) :
  heap (Attr l a st).2 = heap st
  ∧ (files st !! nextFd st = None → files (Attr l a st).2 = files st).
Proof.
  destruct (heap st !! l) as [n|] eqn:Hn; [|by rewrite Attr_no_node].
  destruct (name_cases (name n))
    as [Hname|[Hname|[(rest & Hname & Hne)|(c & rest & Hname & Hc)]]].
  - by erewrite Attr_empty_name.
  - by erewrite Attr_description.
  - destruct (mu n) eqn:Hmu.
    + by erewrite Attr_special_blocked.
    + by erewrite Attr_special.
  - erewrite Attr_ordinary by done.
    destruct (GetFilePath _ _ _) as [songPath [e|]]; [done|].
    destruct (osOpenErr songPath) as [e|]; [done|]. simpl.
    split; [done|]. apply delete_insert_id.
Qed.

(** X15: [Attr] only looks. Whatever it returns, and also when it panics
    or waits, every node is afterwards what it was before, the mutex of a
    special file included; and when descriptors are handed out fresh, the
    open descriptors are the ones that were open before: the descriptor
    [Attr] opens on a song is closed again, also when its [Stat] fails. *)
Theorem Attr_leaves_state (l : loc) (a : Attr_) (st : State) :
  heap (Attr l a st).2 = heap st
  ∧ (files st !! nextFd st = None → files (Attr l a st).2 = files st).
Proof. apply Attr_state. Qed.

(** X16: the attributes [Attr] reports when it succeeds. A [.description]
    node is read-only (0444) and as long as its description; any other name
    that begins with a dot is read-write (0666) and as long as the bytes
    the store holds for it while it has no writer, and as long as its
    buffer while it has one; every other node has mode 0777 and the size
    of the file its path resolves to. *)
Theorem Attr_reports (l : loc) (n : File) (a a' : Attr_) (st st' : State) :
  heap st !! l = Some n →
  Attr l a st = (Ret (a', None), st') →
  (name n = ".description" →
     a' = {| Size := len (GetDescription (artist n) (album n) (name n)).1;
             Mode := octal 4 4 4 |})
  ∧ (∀ rest, name n = String "." rest → name n ≠ ".description" →
       a' = {| Size := if (writers n =? 0)%Z
                       then len (GetSpecialFile (artist n) (album n) (name n)).1
                       else lenBytes (data n);
               Mode := octal 6 6 6 |})
  ∧ (∀ c rest, name n = String c rest → c ≠ "."%char →
       a' = {| Size := (statFile (GetFilePath (artist n) (album n) (name n)).1).1;
               Mode := octal 7 7 7 |}).
Proof.
  intros Hn Hattr. split_and!.
  - intros Hname. rewrite (Attr_description l n a st Hn Hname) in Hattr.
    destruct (GetDescription _ _ _) as [d [e|]]; simpl in *; by simplify_eq.
  - intros rest Hname Hne. destruct (mu n) eqn:Hmu.
    { by rewrite (Attr_special_blocked l n a st rest Hn Hname Hne Hmu) in Hattr. }
    rewrite (Attr_special l n a st rest Hn Hname Hne Hmu) in Hattr.
    destruct (writers n =? 0)%Z; [|by simplify_eq].
    destruct (GetSpecialFile _ _ _) as [b [e|]]; simpl in *; by simplify_eq.
  - intros c rest Hname Hc.
    rewrite (Attr_ordinary l n a st c rest Hn Hname Hc) in Hattr.
    destruct (GetFilePath _ _ _) as [songPath [e|]]; [by simplify_eq|].
    destruct (osOpenErr songPath) as [e|]; [by simplify_eq|]. simpl.
    destruct (statFile songPath) as [size [e|]]; simpl in *; by simplify_eq.
Qed.

Lemma Open_no_node (l : loc) (rq rs : N) (st : State) :
  heap st !! l = None → Open l rq rs st = (Panic, st).
Proof. intros Hn. unfold Main.Open, bind, load. by rewrite Hn. Qed.

Lemma Open_description (l : loc) (n : File) (rq rs : N) (st : State) :
  heap st !! l = Some n → name n = ".description" →
  Open l rq rs st = (Ret ((Some {| r := None; f := Some l |}, None), rs), st).
Proof. intros Hn Hname. unfold Main.Open, bind, load. by rewrite Hn, Hname. Qed.

Lemma Open_hidden (l : loc) (n : File) (rq rs : N) (st : State) rest :
  heap st !! l = Some n → name n = String "." rest → name n ≠ ".description" →
  Open l rq rs st = (Ret ((None, Some EPERM), rs), st).
Proof.
  intros Hn Hname Hne. apply String.eqb_neq in Hne.
  unfold Main.Open, bind, load. rewrite Hn, Hne. by rewrite Hname.
Qed.

Lemma Open_ordinary (l : loc) (n : File) (rq rs : N) (st : State) c rest :
  heap st !! l = Some n → name n = String c rest → c ≠ "."%char →
  Open l rq rs st
  = let rs' := if String.eqb GOOS "darwin" then N.lor rs OpenDirectIO else rs in
    match GetFilePath (artist n) (album n) (name n) with
    | (_, Some e) => (Ret ((None, Some e), rs'), st)
    | (songPath, None) =>
        match osOpenErr songPath with
        | Some e => (Ret ((None, Some e), rs'), st)
        | None =>
            (Ret ((Some {| r := Some (nextFd st); f := Some l |}, None), rs'),
             {| heap := heap st;
                files := <[nextFd st := songPath]> (files st);
                nextFd := S (nextFd st); trace := trace st |})
        end
    end.
Proof.
  intros Hn Hname Hc. apply Ascii.eqb_neq in Hc.
  assert (String.eqb (name n) ".description" = false) as Hne.
  { rewrite Hname. simpl. by rewrite Hc. }
  unfold Main.Open, bind at 1, load. rewrite Hn, Hne.
  unfold bind at 1, lift. rewrite Hname at 1. rewrite index_first_cons, Hc.
  simpl. destruct (GetFilePath _ _ _) as [songPath [e|]]; [done|].
  unfold bind, osOpen. by destruct (osOpenErr songPath) as [e|].
Qed.

(** X17: what [Open] hands back. It returns a handle or an error, never
    both and never neither; an error leaves the state untouched, so no
    descriptor is taken for an open that fails. A handle points back to the
    node it was opened on; it has no descriptor exactly for [.description],
    and otherwise the next descriptor, now open on the path the node
    resolves to. No node and no trace is touched. The response flags come
    back as they went in, or, on darwin only, with the direct-I/O bit
    set. *)
Theorem Open_result (l : loc) (n : File) (rq rs rs' : N) (st st' : State)
    (h : option FileHandle) (e : option error) :
  heap st !! l = Some n →
  Open l rq rs st = (Ret ((h, e), rs'), st') →
  (is_Some h ↔ e = None)
  ∧ (h = None → st' = st)
  ∧ heap st' = heap st
  ∧ trace st' = trace st
  ∧ (∀ hd, h = Some hd →
       f hd = Some l
       ∧ (r hd = None ↔ name n = ".description")
       ∧ (r hd = None → st' = st)
       ∧ (∀ d, r hd = Some d →
            d = nextFd st
            ∧ (GetFilePath (artist n) (album n) (name n)).2 = None
            ∧ files st'
              = <[d := (GetFilePath (artist n) (album n) (name n)).1]> (files st)))
  ∧ (rs' = rs ∨ (GOOS = "darwin" ∧ rs' = N.lor rs OpenDirectIO)).
Proof.
  intros Hn Hopen.
  destruct (name_cases (name n))
    as [Hname|[Hname|[(rest & Hname & Hne)|(c & rest & Hname & Hc)]]].
  - by erewrite Open_empty_name in Hopen.
  - rewrite (Open_description l n rq rs st Hn Hname) in Hopen.
    simplify_eq. split_and!; [by split; eauto|done|done|done| |by left].
    intros hd [= <-]. simpl. split_and!; done.
  - rewrite (Open_hidden l n rq rs st rest Hn Hname Hne) in Hopen.
    simplify_eq. split_and!; [|done|done|done|done|by left].
    split; [by intros [? ?]|done].
  - rewrite (Open_ordinary l n rq rs st c rest Hn Hname Hc) in Hopen.
    assert (name n ≠ ".description") as Hne.
    { rewrite Hname. intros [= ? _]. done. }
    assert ((if String.eqb GOOS "darwin" then N.lor rs OpenDirectIO else rs) = rs
            ∨ GOOS = "darwin"
              ∧ (if String.eqb GOOS "darwin" then N.lor rs OpenDirectIO else rs)
                = N.lor rs OpenDirectIO) as Hflags.
    { destruct (String.eqb_spec GOOS "darwin"); [by right|by left]. }
    simpl in Hopen.
    destruct (GetFilePath _ _ _) as [songPath [e'|]]; simpl.
    { simplify_eq. split_and!; [|done..].
      split; [by intros [? ?]|done]. }
    destruct (osOpenErr songPath) as [e'|].
    { simplify_eq. split_and!; [|done..].
      split; [by intros [? ?]|done]. }
    simplify_eq. split_and!; [by split; eauto|done|done|done| |done].
    intros hd [= <-]. simpl. split_and!; [done|by split|done|].
    intros d [= <-]. done.
Qed.

(** X18: open, then release. Where descriptors are handed out fresh, the
    handle a successful [Open] returns can be released with any flags:
    the release does not wait, and afterwards exactly the descriptors are
    open that were open before the [Open]. *)
Theorem Open_then_Release (l : loc) (n : File) (rq rs rs' flr : N)
    (st st1 : State) (hd : FileHandle) :
  heap st !! l = Some n →
  files st !! nextFd st = None →
  Open l rq rs st = (Ret ((Some hd, None), rs'), st1) →
  (Release hd flr st1).1 ≠ Blocked
  ∧ files (Release hd flr st1).2 = files st
  ∧ heap (Release hd flr st1).2 = heap st.
Proof.
  intros Hn Hfresh Hopen.
  destruct (name_cases (name n))
    as [Hname|[Hname|[(rest & Hname & Hne)|(c & rest & Hname & Hc)]]].
  - by erewrite Open_empty_name in Hopen.
  - rewrite (Open_description l n rq rs st Hn Hname) in Hopen. simplify_eq.
    unfold Main.Release, deref, load, bind. simpl. by rewrite Hn, Hname.
  - by rewrite (Open_hidden l n rq rs st rest Hn Hname Hne) in Hopen.
  - rewrite (Open_ordinary l n rq rs st c rest Hn Hname Hc) in Hopen.
    simpl in Hopen.
    destruct (GetFilePath _ _ _) as [songPath [e'|]]; [by simplify_eq|].
    destruct (osOpenErr songPath) as [e'|]; simplify_eq.
    edestruct (Release_with_descriptor GetFilePath HandleDrop closeErr
                 (Some l) (nextFd st)) as (o & rest' & -> & Hnb & _).
    { intros l' [= <-]. simpl. by eexists. }
    simpl. split_and!; [done| |done]. by apply delete_insert_id.
Qed.

End AttrOpenMore.

(** ** More of the handle layer: reading and writing *)

Section ReadWriteMore.

Import Main.

Variable GetDescription : string → string → string → string * option error.
Variable GetArtistPath : string → string * option error.
Variable readFile : fd → Z → string * option error.
Variable writeFile : fd → string → Z * option error.


(** X19: reading a [.description] handle. The call touches neither the
    state nor any descriptor, and does not look at the size or the offset
    asked for. Without an artist it fails with ENOENT; an artist that the
    store does not know fails with the store's error; when the artist is
    known, the album, if its name is longer than one byte, is known, and
    the description can be had, the response holds the whole description.
    On every error the response keeps the data it had. *)
Theorem Read_description (GetAlbumPath : string → string → string * option error)
    (l : loc) (n : File) (st : State) (data : string) :
  heap st !! l = Some n →
  name n = ".description" →
  ∃ out,
    (∀ req',
       Main.Read GetDescription GetArtistPath GetAlbumPath readFile
         {| r := None; f := Some l |} req' data st = (Ret (out, []), st))
    ∧ (artist n = EmptyString → out = (data, Some ENOENT))
    ∧ (∀ e, artist n ≠ EmptyString → (GetArtistPath (artist n)).2 = Some e →
         out = (data, Some e))
    ∧ (∀ d, artist n ≠ EmptyString → (GetArtistPath (artist n)).2 = None →
         (len (album n) ≤ 1)%Z ∨ (GetAlbumPath (artist n) (album n)).2 = None →
         GetDescription (artist n) (album n) (name n) = (d, None) →
         out = (d, None))
    ∧ (out.2 ≠ None → out.1 = data).
Proof.
  intros Hn Hname.
  unfold Main.Read, deref, load, bind, ret. simpl. rewrite Hn, Hname. simpl.
  destruct (len (artist n) <? 1)%Z eqn:Hartist.
  { apply len_lt_1 in Hartist. eexists. split; [done|].
    split_and!; intros; simplify_eq; done. }
  apply len_lt_1_false in Hartist.
  destruct ((GetArtistPath (artist n)).2) as [e|] eqn:Hap.
  { eexists. split; [done|]. split_and!; intros; simplify_eq; done. }
  destruct (1 <? len (album n))%Z eqn:Halbum.
  - destruct ((GetAlbumPath (artist n) (album n)).2) as [e|] eqn:Hbp.
    + eexists. split; [done|]. split_and!; intros; simplify_eq; try done.
      apply Z.ltb_lt in Halbum. exfalso.
      match goal with H : _ ∨ _ |- _ => destruct H end; [lia|done].
    + destruct (GetDescription _ _ _) as [d [e|]].
      * eexists. split; [done|]. split_and!; intros; simplify_eq; done.
      * eexists. split; [done|]. split_and!; intros; simplify_eq; done.
  - destruct (GetDescription _ _ _) as [d [e|]].
    + eexists. split; [done|]. split_and!; intros; simplify_eq; done.
    + eexists. split; [done|]. split_and!; intros; simplify_eq; done.
Qed.

(** X20: an album whose name is a single byte is not looked up. Reading
    the [.description] of such an album (or of an artist) answers the same
    whatever the store would say about the album. *)
Theorem Read_album_unchecked
    (GetAlbumPath GetAlbumPath' : string → string → string * option error)
    (l : loc) (n : File) (st : State) (req : ReadRequest) (data : string) :
  heap st !! l = Some n →
  (len (album n) ≤ 1)%Z →
  Main.Read GetDescription GetArtistPath GetAlbumPath readFile
    {| r := None; f := Some l |} req data st
  = Main.Read GetDescription GetArtistPath GetAlbumPath' readFile
      {| r := None; f := Some l |} req data st.
Proof.
  intros Hn Hlen.
  unfold Main.Read, deref, load, bind, ret. simpl. rewrite Hn.
  destruct (1 <? len (album n))%Z eqn:Halbum; [|done].
  apply Z.ltb_lt in Halbum. lia.
Qed.


(** Writing. A handle without a descriptor cannot be written: on a
    [.description] node the call fails with EPERM, on any other node with
    EIO, and in both cases nothing is written, the response keeps its size
    and the state stays as it is; so the buffer of a special file is never
    filled through [Write]. A handle with an open descriptor passes the
    data of the request to the descriptor, once and unchanged, and returns
    the count and the error the descriptor gives. *)
Lemma Write_cases (l : loc) (n : File) (pf : option loc) (d : fd)
    (path : string) (st : State) (req : WriteRequest) (size : Z) :
  heap st !! l = Some n →
  files st !! d = Some path →
  Main.Write writeFile {| r := None; f := Some l |} req size st
    = (Ret ((size, Some (if String.eqb (name n) ".description"
                         then EPERM else EIO)), []), st)
  ∧ Main.Write writeFile {| r := Some d; f := pf |} req size st
    = (Ret (writeFile d (writeData req), [IoWrite d (writeData req)]), st).
Proof.
  intros Hn Hd. unfold Main.Write, deref, load, bind, ret. simpl.
  rewrite Hn, Hd. split.
  - by destruct (String.eqb (name n) ".description").
  - by destruct (writeFile d (writeData req)).
Qed.

End ReadWriteMore.

(** ** What no callback does *)

Section Frame.

Import Main.

Variable GetFilePath : string → string → string → string * option error.
Variable GetDescription : string → string → string → string * option error.
Variable GetSpecialFile : string → string → string → string * option error.
Variable HandleDrop : string → option error.
Variable GOOS : string.
Variable osOpenErr : string → option error.
Variable statFile : string → Z * option error.
Variable closeErr : fd → option error.
Variable GetArtistPath : string → string * option error.
Variable GetAlbumPath : string → string → string * option error.
Variable readFile : fd → Z → string * option error.
Variable writeFile : fd → string → Z * option error.

Local Abbreviation Attr := (Main.Attr GetFilePath GetDescription GetSpecialFile
                              osOpenErr statFile closeErr).
Local Abbreviation Open := (Main.Open GetFilePath GOOS osOpenErr).
Local Abbreviation Release := (Main.Release GetFilePath HandleDrop closeErr).
Local Abbreviation Read := (Main.Read GetDescription GetArtistPath GetAlbumPath
                              readFile).
Local Abbreviation Write := (Main.Write writeFile).

Lemma sameNodes_heap (st st' : State) : heap st' = heap st → sameNodes st st'.
Proof.
  intros Hh l. rewrite Hh. destruct (heap st !! l); [|done].
  split_and!; try done. by left.
Qed.

Lemma sameNodes_released (st st' : State) (l : loc) (n : File) :
  heap st !! l = Some n → heap st' = <[l := released n]> (heap st) →
  sameNodes st st'.
Proof.
  intros Hn Hh l'. rewrite Hh. destruct (decide (l' = l)) as [->|Hne].
  - rewrite Hn, lookup_insert_eq. unfold released. simpl.
    split_and!; try done. destruct (uint (writers n - 1) =? 0)%Z; eauto.
  - rewrite lookup_insert_ne by done. destruct (heap st !! l'); [|done].
    split_and!; try done. by left.
Qed.

Lemma Open_heap (l : loc) (rq rs : N) (st : State) :
  heap (Open l rq rs st).2 = heap st.
Proof.
  destruct (heap st !! l) as [n|] eqn:Hn; [|by rewrite Open_no_node].
  destruct (name_cases (name n))
    as [Hname|[Hname|[(rest & Hname & Hne)|(c & rest & Hname & Hc)]]].
  - by erewrite Open_empty_name.
  - by erewrite Open_description.
  - by erewrite Open_hidden.
  - erewrite Open_ordinary by done. simpl.
    destruct (GetFilePath _ _ _) as [songPath [e|]]; [done|].
    by destruct (osOpenErr songPath).
Qed.

Lemma Release_nodes (fh : FileHandle) (fl : N) (st : State) :
  sameNodes st (Release fh fl st).2.
Proof.
  destruct fh as [[d|] pf].
  - destruct pf as [l|]; [|by apply sameNodes_heap].
    destruct (heap st !! l) as [n|] eqn:Hn.
    + edestruct (Release_with_descriptor GetFilePath HandleDrop closeErr
                   (Some l) d st fl) as (o & rest & -> & _).
      { intros l' [= <-]. by eexists. }
      by apply sameNodes_heap.
    + apply sameNodes_heap.
      unfold Main.Release, load, bind. simpl. by rewrite Hn.
  - destruct pf as [l|]; [|by apply sameNodes_heap].
    destruct (heap st !! l) as [n|] eqn:Hn.
    2:{ apply sameNodes_heap.
        unfold Main.Release, deref, load, bind. simpl. by rewrite Hn. }
    destruct (isMacSpecial_total (name n) st) as (b & _ & Hiff).
    assert (specialName (name n) ∨ ¬ specialName (name n)) as [Hsp|Hsp].
    { destruct b; [left; by apply Hiff|right]. intros ?%Hiff. done. }
    + destruct (IsReadOnly fl) eqn:Hro.
      { erewrite Release_special_read by done. by apply sameNodes_heap. }
      destruct (mu n) eqn:Hmu.
      { erewrite Release_special_blocked by done. by apply sameNodes_heap. }
      erewrite Release_special_write by done.
      by apply sameNodes_released with l n.
    + apply sameNodes_heap.
      unfold Main.Release, deref, load, bind. simpl. rewrite Hn.
      destruct (String.eqb (name n) ".description"); [done|].
      destruct (isMacSpecial_total (name n) st) as (b' & -> & Hb).
      destruct b'; [|done]. exfalso. by apply Hsp, Hb.
Qed.

(** X22: no callback of the handle layer makes a node, loses one, or
    changes what a node stands for (artist, album, song, name, mount
    root), and none puts anything into a node's buffer: after [Attr],
    [Open], [Release], [Flush], [Read], [Write] or [Setattr], however the
    call ends, every node's buffer is what it was or has been dropped. *)
Theorem callbacks_keep_nodes (st : State) (l : loc) (fh : FileHandle)
    (a : Attr_) (rq rs fl : N) (rreq : ReadRequest) (data : string)
    (wreq : WriteRequest) (size : Z) (reqSize : option Z) :
  sameNodes st (Attr l a st).2
  ∧ sameNodes st (Open l rq rs st).2
  ∧ sameNodes st (Release fh fl st).2
  ∧ sameNodes st (Flush fh st).2
  ∧ sameNodes st (Read fh rreq data st).2
  ∧ sameNodes st (Write fh wreq size st).2
  ∧ sameNodes st (Setattr l reqSize st).2.
Proof.
  split_and!.
  - apply sameNodes_heap, Attr_state.
  - apply sameNodes_heap, Open_heap.
  - apply Release_nodes.
  - apply sameNodes_heap. unfold Flush. by destruct (r fh).
  - apply sameNodes_heap. unfold Main.Read, deref, load, bind, lift, ret.
    destruct (r fh) as [d|].
    + destruct (readSize rreq <? 0)%Z; [done|].
      by destruct (files st !! d); [destruct (readFile _ _)|].
    + destruct (f fh) as [l'|]; [|done].
      destruct (heap st !! l') as [n|]; [|done].
      repeat case_match; done.
  - apply sameNodes_heap. unfold Main.Write, deref, load, bind, ret.
    destruct (r fh) as [d|].
    + by destruct (files st !! d); [destruct (writeFile _ _)|].
    + destruct (f fh) as [l'|]; [|done].
      destruct (heap st !! l') as [n|]; [|done].
      by case_match.
  - apply sameNodes_heap. unfold Setattr, load, bind.
    by destruct (heap st !! l).
Qed.

End Frame.

(** ** The added properties, exercised *)

Section MoreExamples.

Import Store Main Examples.

Lemma ListPlaylists_entries_witness :
  ListPlaylists world = ([dirEntry "My_Mix"], None)
  ∧ NoDup (playlistNames (dbRoot world)).
Proof.
  destruct (proj2 (ListPlaylists_entries world) eq_refl) as (Hlist & _ & Hwf).
  split; [exact Hlist|]. exact (proj1 (proj2 (Hwf eq_refl))).
Defined.

Lemma GetPlaylistFilePath_answers_witness :
  dbOpenErr world = None
  ∧ ((∃ file, readable decodePath (dbRoot world) "My_Mix" "track1" = Some file
              ∧ "/music/a.mp3" = Path file)
     ∨ (readable decodePath (dbRoot world) "My_Mix" "track1" = None
        ∧ "/mnt" ≠ EmptyString
        ∧ "/music/a.mp3" = fallbackPath "/mnt" "My_Mix" "track1"
        ∧ isFile world "/music/a.mp3" = true)).
Proof.
  exact (GetPlaylistFilePath_answers decodePath "My_Mix" "track1" "/mnt" world
           "/music/a.mp3" None eq_refl).
Defined.


Lemma listed_iff_recorded_witness :
  ∃ l,
    ListPlaylistSongs "My_Mix" "/mnt" world = Ret (l, None)
    ∧ fileEntry "track1" ∈ l
    ∧ GetPlaylistFilePath decodePath "My_Mix" "track1" "/mnt" world
      = Ret ("/music/a.mp3", None).
Proof.
  destruct (listed_iff_recorded decodePath "My_Mix" "track1" "/mnt" world
              eq_refl eq_refl) as (l & Hlist & _ & Hboth); [discriminate|].
  exists l. split; [exact Hlist|].
  exact (Hboth {| Path := "/music/a.mp3" |} eq_refl).
Defined.


Lemma CreatePlaylist_wf_witness : wf (dbRoot createdWorld) = true.
Proof.
  exact (CreatePlaylist_wf underscores "My Mix" "/mnt" emptyWorld createdWorld
           ("My_Mix", None) [RegeneratePlaylistFile "My_Mix" "/mnt"]
           eq_refl eq_refl).
Defined.

Lemma CreatePlaylist_existing_witness :
  CreatePlaylist underscores "My Mix" "/mnt" world
  = (("My_Mix", None), world, [RegeneratePlaylistFile "My_Mix" "/mnt"]).
Proof.
  apply (CreatePlaylist_existing underscores "My Mix" "/mnt" world);
    [reflexivity|reflexivity|reflexivity|discriminate|by eexists].
Defined.

Lemma CreatePlaylist_listed_witness :
  dirEntry "My_Mix" ∈ (ListPlaylists createdWorld).1.
Proof.
  apply (CreatePlaylist_listed underscores "My Mix" "/mnt" emptyWorld
           createdWorld [RegeneratePlaylistFile "My_Mix" "/mnt"]
           eq_refl eq_refl "My_Mix").
  by left.
Defined.

Lemma CreatePlaylist_refusals_witness :
  CreatePlaylist underscores "" "/mnt" world
  = (("", Some ErrBucketNameRequired), world, []).
Proof.
  destruct (CreatePlaylist underscores "" "/mnt" world) as [[r w1] t] eqn:Hc.
  destruct (CreatePlaylist_refusals underscores "" "/mnt" world w1 r t
              eq_refl eq_refl Hc) as (_ & Hfail & Hempty & _).
  assert (r = ("", Some ErrBucketNameRequired)) as ->.
  { apply Hempty; [|reflexivity]. by intros [v [=]]. }
  destruct Hfail as (_ & -> & ->); [discriminate|]. reflexivity.
Defined.

Lemma Release_no_descriptor_witness :
  Release libraryPath failingDrop closes {| r := None; f := Some 0 |} 1 songState
  = (Ret None, songState).
Proof.
  apply (proj1 (proj2 (Release_no_descriptor libraryPath failingDrop closes
                         0 songNode songState 1 eq_refl))).
  left. intros [[rest [=]]|[=]].
Defined.

Lemma Release_special_underflow_witness :
  ∃ st' n',
    Release libraryPath failingDrop closes {| r := None; f := Some 1 |} 1 songState
    = (Ret None, st')
    ∧ heap st' !! 1 = Some n'
    ∧ writers n' = 18446744073709551615%Z
    ∧ data n' = Some "abc".
Proof.
  apply (Release_special_underflow libraryPath failingDrop closes 1 idleSpecial
           songState 1); [reflexivity| |reflexivity..].
  left. by exists "cover".
Defined.

Lemma Release_closes_descriptor_witness :
  ∃ o st' rest,
    Release libraryPath failingDrop closes {| r := Some 7; f := Some 0 |} 0 songState
    = (o, st')
    ∧ o ≠ Blocked
    ∧ files st' !! 7 = None
    ∧ files st' = delete 7 (files songState)
    ∧ heap st' = heap songState
    ∧ trace st' = trace songState ++ EvClose 7 :: rest
    ∧ (∀ d', EvClose d' ∉ rest).
Proof.
  apply (Release_closes_descriptor libraryPath failingDrop closes (Some 0) 7
           songState 0).
  intros l [= <-]. by eexists.
Defined.


Lemma Release_answer_witness :
  (Release noPath failingDrop closes {| r := Some 7; f := Some 0 |} 0 songState).1
  = Ret (Some ENOENT).
Proof.
  destruct (Release_answer noPath failingDrop closes 0 songNode 7 songState 0
              eq_refl) as (_ & _ & Hsong); [discriminate|].
  destruct Hsong as [Herr _]; [discriminate..|]. by apply Herr.
Defined.

Lemma Attr_leaves_state_witness :
  files (Attr libraryPath describes noBytes opens sizes closes 0
           {| Size := 0; Mode := 0 |} songState).2
  = files songState.
Proof.
  apply (proj2 (Attr_leaves_state libraryPath describes noBytes opens sizes
                  closes 0 {| Size := 0; Mode := 0 |} songState)).
  reflexivity.
Defined.

Lemma Attr_reports_witness :
  {| Size := 2; Mode := 292 |}
  = {| Size := len (describes "Artist" "A" ".description").1;
       Mode := octal 4 4 4 |}.
Proof.
  apply (proj1 (Attr_reports libraryPath describes noBytes opens sizes closes
                  2 descriptionNode {| Size := 0; Mode := 0 |}
                  {| Size := 2; Mode := 292 |} songState songState
                  eq_refl eq_refl)).
  reflexivity.
Defined.

Lemma Open_result_witness :
  8 = nextFd songState
  ∧ (libraryPath "Artist" "Album" "song.mp3").2 = None
  ∧ <[8 := "/music/Artist/Album/song.mp3"]> (files songState)
    = <[8 := (libraryPath "Artist" "Album" "song.mp3").1]> (files songState).
Proof.
  destruct (Open_result libraryPath "darwin" opens 0 songNode 0 0 1
              songState
              {| heap := heap songState;
                 files := <[8 := "/music/Artist/Album/song.mp3"]> (files songState);
                 nextFd := 9; trace := [] |}
              (Some {| r := Some 8; f := Some 0 |}) None eq_refl eq_refl)
    as (_ & _ & _ & _ & Hhandle & _).
  destruct (Hhandle _ eq_refl) as (_ & _ & _ & Hd). exact (Hd 8 eq_refl).
Defined.

Lemma Open_then_Release_witness :
  files (Release libraryPath failingDrop closes {| r := Some 8; f := Some 0 |} 0
           {| heap := heap songState;
              files := <[8 := "/music/Artist/Album/song.mp3"]> (files songState);
              nextFd := 9; trace := [] |}).2
  = files songState.
Proof.
  apply (Open_then_Release libraryPath failingDrop "linux" opens closes
           0 songNode 0 0 0 0 songState _ {| r := Some 8; f := Some 0 |}
           eq_refl eq_refl eq_refl).
Defined.

Lemma Read_description_witness :
  ∃ out,
    (∀ req',
       Read describes knownArtist noAlbum atEnd {| r := None; f := Some 2 |}
         req' "" songState = (Ret (out, []), songState))
    ∧ out = ("{}", None).
Proof.
  destruct (Read_description describes knownArtist atEnd noAlbum 2
              descriptionNode songState "" eq_refl eq_refl)
    as (out & Hread & _ & _ & Hok & _).
  exists out. split; [exact Hread|].
  apply Hok; [discriminate|reflexivity| |reflexivity].
  left. unfold len. simpl. lia.
Defined.

Lemma Read_album_unchecked_witness :
  Read describes knownArtist noAlbum atEnd {| r := None; f := Some 2 |}
    {| readOffset := 0; readSize := 4096 |} "" songState
  = Read describes knownArtist (λ _ _, ("", None)) atEnd
      {| r := None; f := Some 2 |}
      {| readOffset := 0; readSize := 4096 |} "" songState.
Proof.
  apply (Read_album_unchecked describes knownArtist atEnd noAlbum
           (λ _ _, ("", None)) 2 descriptionNode songState
           {| readOffset := 0; readSize := 4096 |} "" eq_refl).
  unfold len. simpl. lia.
Defined.


End MoreExamples.
